(** * lidarr-import-extras: the extras-sync engine of [src/index.js]

    A shallow embedding of the path-reconciliation and extras-sync code of
    [src/index.js], and the properties of its specification settled against
    it.

    Conventions of the model.
    - JavaScript strings are [string]s; characters are [ascii] codes, and
      [toLowerCase] acts on the letters A to Z.
    - Node's [path] module is the POSIX one ([path.sep] is "/").  [dirname]
      and [extname] are transcribed loop for loop from Node's [lib/path.js];
      [normalizeString] is expressed on the "/"-separated segments of its
      argument.  [process.cwd()] is a parameter [cwd].
    - [String.prototype.replace] with a string pattern expands the
      replacement patterns of ECMA-262 ([getSubstitution]).
    - The album directory is a finite map from entry names to nodes; the
      download folder is a tree whose directories list their entries in
      enumeration order.  An entry name is what [fs.readdir] gives: a name
      of the directory, so that [path.join(albumPath, name)] is the entry
      [name] of the album directory.  The download tree is read-only during
      a run (the album directory does not lie inside it) and its
      directories can be listed.
    - A function that may throw returns a [completion]; the I/O failures
      the environment may inject are the [faults].
    - The body of a notification has the fields the handler reads, with the
      types the notifier gives them: a string, a list of records with a
      [path] string, a string. *)

From Stdlib Require Import Ascii String ZArith Lia List.
From stdpp Require Import base decidable option list gmap strings.

Open Scope Z_scope.
Open Scope stdpp_scope.

(** ** JavaScript values and completions *)

(** The result of running a function body: a normal return or a thrown
    [Error] with its message. *)
Inductive completion (A : Type) : Type :=
| Return (a : A)
| Throw (msg : string).
Arguments Return {A} a.
Arguments Throw {A} msg.

Definition threw {A} (c : completion A) : bool :=
  match c with Throw _ => true | Return _ => false end.

(** A value that is a string or [null]; [!v] is [falsy v]. *)
Inductive strOrNull : Type :=
| JNull
| JStr (s : string).

Definition falsy (v : strOrNull) : bool :=
  match v with
  | JNull => true
  | JStr s => bool_decide (s = "")
  end.

(** ** String primitives *)

Module Js.

Definition slash : ascii := "/"%char.
Definition dot : ascii := "."%char.
Definition dollar : ascii := "$"%char.

(** [s.charCodeAt(i)] for an index inside the string. *)
Definition charCodeAt (s : string) (i : nat) : option ascii := String.get i s.

(** [s.slice(a, b)] for [0 <= a <= b <= s.length]. *)
Definition slice (s : string) (a b : Z) : string :=
  String.substring (Z.to_nat a) (Z.to_nat (b - a)) s.

(** [s.startsWith(p)]. *)
Definition startsWith (s p : string) : bool := String.prefix p s.

(** [s.split(c)] for a one-character separator. *)
Fixpoint split (c : ascii) (s : string) : list string :=
  match s with
  | EmptyString => [EmptyString]
  | String a s' =>
      if decide (a = c) then EmptyString :: split c s'
      else match split c s' with
           | h :: t => String a h :: t
           | [] => [String a EmptyString]
           end
  end.

(** [parts.join(sep)]. *)
Definition join (sep : string) (parts : list string) : string :=
  String.concat sep parts.

(** [c.toLowerCase()] on character codes: the letters A to Z move to a to
    z, every other code is kept. *)
Definition lower_char (c : ascii) : ascii :=
  let n := nat_of_ascii c in
  if ((65 <=? n) && (n <=? 90))%nat then ascii_of_nat (n + 32) else c.

Fixpoint toLowerCase (s : string) : string :=
  match s with
  | EmptyString => EmptyString
  | String a s' => String (lower_char a) (toLowerCase s')
  end.

(** [GetSubstitution] of ECMA-262 for a string pattern (no capture
    groups): in the replacement text, "$$" stands for "$", "$&" for the
    matched text, "$`" for the text before the match and "$'" for the text
    after it; any other "$" is kept as it is. *)
Fixpoint getSubstitution (matched before after repl : string) : string :=
  match repl with
  | EmptyString => EmptyString
  | String a r =>
      if decide (a = dollar) then
        match r with
        | String b r' =>
            if decide (b = dollar) then
              String dollar (getSubstitution matched before after r')
            else if decide (b = "&"%char) then
              matched +:+ getSubstitution matched before after r'
            else if decide (b = "`"%char) then
              before +:+ getSubstitution matched before after r'
            else if decide (b = "'"%char) then
              after +:+ getSubstitution matched before after r'
            else String a (getSubstitution matched before after r)
        | EmptyString => String a EmptyString
        end
      else String a (getSubstitution matched before after r)
  end.

(** [s.replace(pat, repl)] for a string pattern: the first occurrence of
    [pat] is replaced by the expansion of [repl]. *)
Definition replace (s pat repl : string) : string :=
  match String.index 0 pat s with
  | None => s
  | Some pos =>
      let before := String.substring 0 pos s in
      let after :=
        String.substring (pos + String.length pat)
          (String.length s - (pos + String.length pat)) s in
      before +:+ getSubstitution pat before after repl +:+ after
  end.

(** [s.includes(c)] for a character [c]. *)
Fixpoint has_char (c : ascii) (s : string) : bool :=
  match s with
  | EmptyString => false
  | String a s' => bool_decide (a = c) || has_char c s'
  end.

End Js.

(** ** Node's [path] module (POSIX) *)

Module Path.

Definition sep : string := "/".

(** One segment of [normalizeString]: empty and "." segments are dropped,
    ".." removes the segment before it (or is kept when the path may climb
    above its start), any other segment is kept.  The stack holds the
    segments kept so far, last first. *)
Definition norm_step (allowAboveRoot : bool) (stack : list string)
    (seg : string) : list string :=
  if decide (seg = "" ∨ seg = ".") then stack
  else if decide (seg = "..") then
    match stack with
    | top :: rest =>
        if decide (top = "..") then
          (if allowAboveRoot then ".." :: stack else stack)
        else rest
    | [] => if allowAboveRoot then [".."] else []
    end
  else seg :: stack.

Definition norm_segments (allowAboveRoot : bool) (segs : list string)
    : list string :=
  rev (fold_left (norm_step allowAboveRoot) segs []).

Definition normalizeString (p : string) (allowAboveRoot : bool) : string :=
  Js.join "/" (norm_segments allowAboveRoot (Js.split Js.slash p)).

Definition isAbsolute (p : string) : bool :=
  match p with
  | String a _ => bool_decide (a = Js.slash)
  | EmptyString => false
  end.

Fixpoint endsWithSlash (p : string) : bool :=
  match p with
  | EmptyString => false
  | String a EmptyString => bool_decide (a = Js.slash)
  | String _ p' => endsWithSlash p'
  end.

(** [path.normalize(p)]. *)
Definition normalize (p : string) : string :=
  if decide (p = "") then "."
  else
    let n := normalizeString p (negb (isAbsolute p)) in
    if decide (n = "") then
      (if isAbsolute p then "/" else if endsWithSlash p then "./" else ".")
    else
      let n' := if endsWithSlash p then n +:+ "/" else n in
      if isAbsolute p then "/" +:+ n' else n'.

(** [path.join(a, b)]. *)
Definition join (a b : string) : string :=
  if decide (a = "") then (if decide (b = "") then "." else normalize b)
  else if decide (b = "") then normalize a
  else normalize (a +:+ "/" +:+ b).

(** [path.resolve(p)] in the working directory [cwd]. *)
Definition resolve (cwd p : string) : string :=
  let r1 := if decide (p = "") then "" else p +:+ "/" in
  let '(r2, absolute) :=
    if isAbsolute p then (r1, true)
    else if decide (cwd = "") then (r1, false)
    else (cwd +:+ "/" +:+ r1, isAbsolute cwd) in
  let n := normalizeString r2 (negb absolute) in
  if absolute then "/" +:+ n
  else if decide (n = "") then "." else n.

(** The loop of [path.dirname]: indices [n-1] down to [1]; the result is
    [end], or [-1] when no separator ends a directory part. *)
Fixpoint dirname_loop (p : string) (n : nat) (matchedSlash : bool) : Z :=
  match n with
  | O => -1
  | S i =>
      match i with
      | O => -1
      | S _ =>
          match Js.charCodeAt p i with
          | Some c =>
              if decide (c = Js.slash) then
                (if matchedSlash then dirname_loop p i matchedSlash
                 else Z.of_nat i)
              else dirname_loop p i false
          | None => -1
          end
      end
  end.

(** [path.dirname(p)]. *)
Definition dirname (p : string) : string :=
  if decide (p = "") then "."
  else
    let hasRoot := isAbsolute p in
    let e := dirname_loop p (String.length p) true in
    if e =? -1 then (if hasRoot then "/" else ".")
    else if hasRoot && (e =? 1) then "//"
    else Js.slice p 0 e.

(** The variables of the loop of [path.extname]. *)
Record ext_state : Type := ExtState {
  startDot : Z;
  startPart : Z;
  endIdx : Z;
  matchedSlash : bool;
  preDotState : Z
}.

Definition ext_init : ext_state := ExtState (-1) 0 (-1) true 0.

(** One character that is not a separator, at index [i]. *)
Definition ext_char (c : ascii) (i : Z) (st : ext_state) : ext_state :=
  let st1 :=
    if endIdx st =? -1
    then ExtState (startDot st) (startPart st) (i + 1) false (preDotState st)
    else st in
  if decide (c = Js.dot) then
    if startDot st1 =? -1 then
      ExtState i (startPart st1) (endIdx st1) (matchedSlash st1)
        (preDotState st1)
    else if negb (preDotState st1 =? 1) then
      ExtState (startDot st1) (startPart st1) (endIdx st1)
        (matchedSlash st1) 1
    else st1
  else if negb (startDot st1 =? -1) then
    ExtState (startDot st1) (startPart st1) (endIdx st1)
      (matchedSlash st1) (-1)
  else st1.

(** The loop of [path.extname]: indices [n-1] down to [0]. *)
Fixpoint extname_loop (p : string) (n : nat) (st : ext_state) : ext_state :=
  match n with
  | O => st
  | S i =>
      match Js.charCodeAt p i with
      | Some c =>
          if decide (c = Js.slash) then
            (if negb (matchedSlash st) then
               ExtState (startDot st) (Z.of_nat i + 1) (endIdx st)
                 (matchedSlash st) (preDotState st)
             else extname_loop p i st)
          else extname_loop p i (ext_char c (Z.of_nat i) st)
      | None => st
      end
  end.

(** [path.extname(p)]. *)
Definition extname (p : string) : string :=
  let st := extname_loop p (String.length p) ext_init in
  if (startDot st =? -1) || (endIdx st =? -1) || (preDotState st =? 0)
     || ((preDotState st =? 1) && (startDot st =? endIdx st - 1)
         && (startDot st =? startPart st + 1))
  then ""
  else Js.slice p (startDot st) (endIdx st).

(** The names on the way from the root to the absolute path [p], once
    empty, "." and ".." parts are resolved. *)
Definition segments (p : string) : list string :=
  norm_segments false (Js.split Js.slash p).

(** The names on the way from the root to the directory that holds [p]. *)
Definition parent_segments (p : string) : list string :=
  removelast (segments p).

(** The path of the directory reached from the root by the names [ds]; the
    root itself for no name. *)
Definition of_segments (ds : list string) : string :=
  "/" +:+ Js.join "/" ds.

End Path.

(** ** Path mappings, common parent and the extras classifier *)

(** [EXTRA_ALLOWLIST]. *)
Definition EXTRA_ALLOWLIST : list string :=
  [".cue"; ".log"; ".png"; ".jpg"; ".jpeg"; ".txt"; ".m3u"; ".m3u8";
   ".yml"; ".yaml"].

(** One rule of [pathMappings]. *)
Record mapping : Type := Mapping { from : string; to : string }.

(** The [for] loop of [applyPathMappings]. *)
Fixpoint applyPathMappings_loop (inputPath : string) (mappings : list mapping)
    : string :=
  match mappings with
  | [] => inputPath
  | map :: rest =>
      if Js.startsWith inputPath (from map)
      then Js.replace inputPath (from map) (to map)
      else applyPathMappings_loop inputPath rest
  end.

(** [applyPathMappings(inputPath, mappings)]; [None] is a [mappings] that is
    absent or not an array. *)
Definition applyPathMappings (inputPath : string)
    (mappings : option (list mapping)) : string :=
  match mappings with
  | None => inputPath
  | Some ms => applyPathMappings_loop inputPath ms
  end.

(** [splitDirs.every((sp) => sp[i] === part)]. *)
Definition every_at (splitDirs : list (list string)) (i : nat)
    (part : option string) : bool :=
  forallb (fun sp => bool_decide (sp !! i = part)) splitDirs.

(** The [for] loop of [findCommonParentDir], from index [i] for [n] more
    rounds; the result lists what is pushed on [commonParts]. *)
Fixpoint commonParts_loop (splitDirs : list (list string)) (i n : nat)
    : list string :=
  match n with
  | O => []
  | S n' =>
      match splitDirs !! 0%nat ≫= (.!! i) with
      | Some part =>
          if every_at splitDirs i (Some part)
          then part :: commonParts_loop splitDirs (S i) n'
          else []
      | None => []
      end
  end.

(** [Math.min(...lens)] for a non-empty list. *)
Definition minLen (lens : list nat) : nat :=
  match lens with
  | [] => 0%nat
  | l :: ls => fold_left Nat.min ls l
  end.

(** [findCommonParentDir(paths)]. *)
Definition findCommonParentDir (cwd : string) (paths : list string)
    : completion strOrNull :=
  match paths with
  | [] => Throw "No paths provided to findCommonParentDir"
  | _ =>
      let dirs := map (fun p => Path.dirname (Path.resolve cwd p)) paths in
      let splitDirs := map (Js.split Js.slash) dirs in
      let n := minLen (map (@length string) splitDirs) in
      let commonParts := commonParts_loop splitDirs 0 n in
      match commonParts with
      | [] => Return JNull
      | _ => Return (JStr (Js.join Path.sep commonParts))
      end
  end.

(** [isExtraFile(filename)]. *)
Definition isExtraFile (filename : string) : bool :=
  bool_decide (Js.toLowerCase (Path.extname filename) ∈ EXTRA_ALLOWLIST).

(** ** The file system *)

(** What a directory entry is: a regular file (with the identity of its
    content, the inode a hard link shares), a directory with its entries in
    enumeration order, or anything else (a symbolic link, a device, ...), for
    which both [isFile()] and [isDirectory()] are false. *)
#[local] Unset Elimination Schemes.
Inductive node : Type :=
| File (ino : N)
| Dir (entries : list (string * node))
| Other.
#[local] Set Elimination Schemes.

(** Induction on a node, with the property at hand for every entry of a
    directory. *)
Section node_induction.
Variable P : node → Prop.
Hypothesis HFile : ∀ ino, P (File ino).
Hypothesis HOther : P Other.
Hypothesis HDir : ∀ es, Forall (fun ne => P ne.2) es → P (Dir es).

Fixpoint node_ind (e : node) : P e :=
  match e with
  | File ino => HFile ino
  | Other => HOther
  | Dir es =>
      HDir es
        ((fix go (es : list (string * node)) : Forall (fun ne => P ne.2) es :=
            match es with
            | [] => List.Forall_nil _
            | ne :: rest => List.Forall_cons _ ne rest (node_ind ne.2) (go rest)
            end) es)
  end.
End node_induction.

Definition isFile (e : node) : bool :=
  match e with File _ => true | _ => false end.

Definition isDirectory (e : node) : bool :=
  match e with Dir _ => true | _ => false end.

(** Failures the environment injects besides those the directory's content
    causes: [lstat] and [unlink] denied on an entry name of the album
    directory, [link] denied for a source file (another device, missing
    permission, too many links). *)
Record faults : Type := Faults {
  lstat_fails : string → bool;
  unlink_fails : string → bool;
  link_fails : N → bool
}.

Definition no_faults : faults :=
  Faults (fun _ => false) (fun _ => false) (fun _ => false).

Module Fs.

(** [fs.readdir(albumPath)]: the names of the entries. *)
Definition readdir (d : gmap string node) : list string :=
  (map_to_list d).*1.

(** [fs.lstat(path.join(albumPath, name))]. *)
Definition lstat (fl : faults) (d : gmap string node) (name : string)
    : completion node :=
  if lstat_fails fl name then Throw "EACCES"
  else match d !! name with
       | Some e => Return e
       | None => Throw "ENOENT"
       end.

(** [fs.unlink(path.join(albumPath, name))]: a directory is not removed. *)
Definition unlink (fl : faults) (d : gmap string node) (name : string)
    : gmap string node * completion unit :=
  if unlink_fails fl name then (d, Throw "EPERM")
  else match d !! name with
       | Some (Dir _) => (d, Throw "EISDIR")
       | Some _ => (delete name d, Return ())
       | None => (d, Throw "ENOENT")
       end.

(** [fs.link(src, path.join(albumPath, name))] for a source file of
    identity [ino]: refused when the name is taken. *)
Definition link (fl : faults) (d : gmap string node) (ino : N)
    (name : string) : gmap string node * completion unit :=
  if link_fails fl ino then (d, Throw "EXDEV")
  else match d !! name with
       | Some _ => (d, Throw "EEXIST")
       | None => (<[name := File ino]> d, Return ())
       end.

End Fs.

(** ** Removing stale extras *)

(** The [for] loop of [removeExistingExtras] over the names [files]; what is
    thrown inside the [try] is dropped. *)
Fixpoint removeExistingExtras_loop (fl : faults) (files : list string)
    (d : gmap string node) : gmap string node :=
  match files with
  | [] => d
  | file :: rest =>
      let d' :=
        match Fs.lstat fl d file with
        | Return st =>
            if isFile st && isExtraFile file
            then fst (Fs.unlink fl d file)
            else d
        | Throw _ => d
        end in
      removeExistingExtras_loop fl rest d'
  end.

(** [removeExistingExtras(albumPath)] on an album directory that can be
    listed. *)
Definition removeExistingExtras (fl : faults) (d : gmap string node)
    : gmap string node :=
  removeExistingExtras_loop fl (Fs.readdir d) d.

(** ** Linking extras *)

(** [base ? `${base}-${name}` : name]. *)
Definition flatName (base name : string) : string :=
  if decide (base = "") then name else base +:+ "-" +:+ name.

(** The body of the [else if] branch: unlink the destination (a failure is
    dropped), then link. *)
Definition linkOne (fl : faults) (d : gmap string node) (ino : N)
    (destFile : string) : gmap string node * completion unit :=
  let d1 := fst (Fs.unlink fl d destFile) in
  Fs.link fl d1 ino destFile.

(** One round of the [for] loop of [linkExtrasRecursive] for the entry
    [name] of kind [e]; a directory runs the loop over its own entries. *)
Fixpoint linkEntry (fl : faults) (base name : string) (e : node)
    (d : gmap string node) {struct e} : gmap string node * completion unit :=
  match e with
  | Dir entries =>
      (fix loop (es : list (string * node)) (d : gmap string node)
         : gmap string node * completion unit :=
         match es with
         | [] => (d, Return ())
         | (n, e') :: rest =>
             match linkEntry fl (flatName base name) n e' d with
             | (d', Return _) => loop rest d'
             | (d', Throw msg) => (d', Throw msg)
             end
         end) entries d
  | File ino =>
      if isExtraFile name then linkOne fl d ino (flatName base name)
      else (d, Return ())
  | Other => (d, Return ())
  end.

(** [linkExtrasRecursive(originalDir, albumPath, base)] where [entries] is
    what [fs.readdir(originalDir, { withFileTypes: true })] lists. *)
Fixpoint linkExtrasRecursive (fl : faults) (entries : list (string * node))
    (base : string) (d : gmap string node)
    : gmap string node * completion unit :=
  match entries with
  | [] => (d, Return ())
  | (n, e) :: rest =>
      match linkEntry fl base n e d with
      | (d', Return _) => linkExtrasRecursive fl rest base d'
      | (d', Throw msg) => (d', Throw msg)
      end
  end.

(** Stale-extras removal followed by linking, as the webhook handler runs
    them on an album directory. *)
Definition syncExtras (fl : faults) (entries : list (string * node))
    (d : gmap string node) : gmap string node * completion unit :=
  linkExtrasRecursive fl entries "" (removeExistingExtras fl d).

(** ** The walk as a list of link operations *)

(** The link operations one entry gives rise to, in the order of the walk:
    the flattened destination name and the identity of the source file. *)
Fixpoint planEntry (base name : string) (e : node) {struct e}
    : list (string * N) :=
  match e with
  | Dir entries =>
      (fix loop (es : list (string * node)) : list (string * N) :=
         match es with
         | [] => []
         | (n, e') :: rest => planEntry (flatName base name) n e' ++ loop rest
         end) entries
  | File ino => if isExtraFile name then [(flatName base name, ino)] else []
  | Other => []
  end.

Fixpoint plan (base : string) (entries : list (string * node))
    : list (string * N) :=
  match entries with
  | [] => []
  | (n, e) :: rest => planEntry base n e ++ plan base rest
  end.

(** The link operations run one after the other, up to the first that
    throws. *)
Fixpoint runPlan (fl : faults) (ops : list (string * N))
    (d : gmap string node) : gmap string node * completion unit :=
  match ops with
  | [] => (d, Return ())
  | (destFile, ino) :: rest =>
      match linkOne fl d ino destFile with
      | (d', Return _) => runPlan fl rest d'
      | (d', Throw msg) => (d', Throw msg)
      end
  end.

(** What [removeExistingExtras] does to the entry [name], whose content was
    [o]: a regular file with an extras name goes, unless [lstat] or [unlink]
    is denied. *)
Definition removed (fl : faults) (name : string) (o : option node)
    : option node :=
  match o with
  | Some e =>
      if negb (lstat_fails fl name) && isFile e && isExtraFile name
         && negb (unlink_fails fl name)
      then None else Some e
  | None => None
  end.

(** ** The webhook handler *)

(** The directories of the machine: album directories of the library and
    directories of the download client, each by its path. *)
Record world : Type := World {
  albums : gmap string (gmap string node);
  downloads : gmap string (list (string * node))
}.

(** What the qBittorrent web API answers: the login request (the response
    body and the [set-cookie] header, if any), [torrents/info] (the
    [save_path] of each torrent listed) and [torrents/files] (the [name] of
    each file); a request that fails throws. *)
Record qbittorrent : Type := Qbittorrent {
  login_post : completion (string * option (list string));
  info_get : string → completion (list string);
  files_get : string → completion (list string)
}.

(** The configuration and the process environment. *)
Record config : Type := Config {
  pathMappings : option (list mapping);
  cwd : string;
  io : faults;
  qbt : qbittorrent
}.

(** One record of [trackFiles]. *)
Record track : Type := Track { path : string }.

(** The body of a notification; [None] is a field that is absent. *)
Record payload : Type := Payload {
  eventType : option string;
  trackFiles : option (list track);
  downloadId : option string
}.

(** The steps of a run, in the vocabulary of the specification.  The model
    marks a step as entered right before the call that performs it. *)
Inductive stage : Type :=
| ResolvingAlbumDir
| RemovingStale
| LoggingIn
| ResolvingSourceDir
| Linking.

Global Instance stage_eq_dec : EqDecision stage.
Proof. solve_decision. Defined.

(** The state a run threads: the directories, the steps entered so far and
    what [console.error] printed. *)
Record state : Type := State {
  fs : world;
  entered : list stage;
  errors : list string
}.

(** Computations of the handler: they read and change the state and may
    throw. *)
Definition M (A : Type) : Type := state → state * completion A.

Definition ret {A} (a : A) : M A := fun s => (s, Return a).

Definition throw {A} (msg : string) : M A := fun s => (s, Throw msg).

Definition bind {A B} (m : M A) (k : A → M B) : M B :=
  fun s =>
    match m s with
    | (s', Return a) => k a s'
    | (s', Throw msg) => (s', Throw msg)
    end.

(** [try { m } catch (err) { h(err.message) }]. *)
Definition try_catch {A} (m : M A) (h : string → M A) : M A :=
  fun s =>
    match m s with
    | (s', Return a) => (s', Return a)
    | (s', Throw msg) => h msg s'
    end.

Definition lift {A} (c : completion A) : M A := fun s => (s, c).

Definition enter (st : stage) : M unit :=
  fun s => (State (fs s) (entered s ++ [st]) (errors s), Return ()).

Definition console_error (msg : string) : M unit :=
  fun s => (State (fs s) (entered s) (errors s ++ [msg]), Return ()).

Notation "'let*' x ':=' m 'in' k" := (bind m (fun x => k))
  (at level 10, x pattern, m at level 100, k at level 200).

(** [removeExistingExtras(albumPath)]: listing a directory that does not
    exist throws. *)
Definition removeExistingExtrasAt (fl : faults) (albumPath : string)
    : M unit :=
  fun s =>
    match albums (fs s) !! albumPath with
    | None => (s, Throw "ENOENT")
    | Some d =>
        (State (World (<[albumPath := removeExistingExtras fl d]>
                         (albums (fs s)))
                  (downloads (fs s)))
           (entered s) (errors s),
         Return ())
    end.

(** [linkExtrasRecursive(originalDir, albumPath)].  When the album directory
    does not exist, the first link throws. *)
Definition linkExtrasRecursiveAt (fl : faults) (originalDir albumPath : string)
    : M unit :=
  fun s =>
    match downloads (fs s) !! originalDir with
    | None => (s, Throw "ENOENT")
    | Some entries =>
        match albums (fs s) !! albumPath with
        | None =>
            (s, match plan "" entries with
                | [] => Return ()
                | _ => Throw "ENOENT"
                end)
        | Some d =>
            let '(d', c) := linkExtrasRecursive fl entries "" d in
            (State (World (<[albumPath := d']> (albums (fs s)))
                      (downloads (fs s)))
               (entered s) (errors s),
             c)
        end
    end.

(** [qbtLogin(cfg)]. *)
Definition qbtLogin (cfg : config) : completion (option (list string)) :=
  match login_post (qbt cfg) with
  | Throw msg => Throw msg
  | Return (data, cookie) =>
      if decide (data = "Ok.") then Return cookie
      else Throw "qBittorrent login failed"
  end.

(** [getTorrentFolder(cfg, downloadId, cookie)]; [cookie.join] throws on a
    cookie that is [undefined]. *)
Definition getTorrentFolder (cfg : config) (downloadId : string)
    (cookie : option (list string)) : completion string :=
  match cookie with
  | None => Throw "Cannot read properties of undefined (reading 'join')"
  | Some _ =>
      match info_get (qbt cfg) downloadId with
      | Throw msg => Throw msg
      | Return [] =>
          Throw ("Torrent " +:+ downloadId +:+ " not found in qBittorrent")
      | Return (save_path :: _) =>
          let savePath := applyPathMappings save_path (pathMappings cfg) in
          match files_get (qbt cfg) downloadId with
          | Throw msg => Throw msg
          | Return [] =>
              Throw ("No files listed for torrent " +:+ downloadId)
          | Return files =>
              let fileNames := map (Path.join savePath) files in
              match findCommonParentDir (cwd cfg) fileNames with
              | Throw msg => Throw msg
              | Return commonPrefix =>
                  match commonPrefix with
                  | JStr (String a r) => Return (String a r)
                  | _ =>
                      Throw
                        "Could not identify common root for torrent folder files"
                  end
              end
          end
      end
  end.

(** The [try] block of the handler. *)
Definition processImport (cfg : config) (tracks : list track)
    (downloadId : string) : M unit :=
  let* _ := enter ResolvingAlbumDir in
  let* albumPath := lift (findCommonParentDir (cwd cfg) (map path tracks)) in
  match albumPath with
  | JStr (String a r) =>
      let albumPath := String a r in
      let* _ := enter RemovingStale in
      let* _ := removeExistingExtrasAt (io cfg) albumPath in
      let* _ := enter LoggingIn in
      let* cookie := lift (qbtLogin cfg) in
      let* _ := enter ResolvingSourceDir in
      let* originalDir := lift (getTorrentFolder cfg downloadId cookie) in
      let* _ := enter Linking in
      linkExtrasRecursiveAt (io cfg) originalDir albumPath
  | _ => throw "Could not identify common root for lidarr track files"
  end.

(** [!body.downloadId]: the field is absent or the empty string. *)
Definition noDownloadId (body : payload) : bool :=
  match downloadId body with
  | Some (String _ _) => false
  | _ => true
  end.

(** The handler of [POST /webhook]; the result is the status code sent. *)
Definition webhook (cfg : config) (body : payload) : M Z :=
  if bool_decide (eventType body = Some "Test") then ret 200
  else
    match trackFiles body with
    | None =>
        let* _ := console_error "Invalid payload structure:" in ret 400
    | Some tracks =>
        if noDownloadId body then
          let* _ := console_error "Invalid payload structure:" in ret 400
        else
          try_catch
            (let* _ := processImport cfg tracks (default "" (downloadId body)) in
             ret 200)
            (fun msg =>
               let* _ := console_error ("Error processing webhook: " +:+ msg) in
               ret 200)
    end.

(** The order of the steps of a run that succeeds. *)
Definition pipeline : list stage :=
  [ResolvingAlbumDir; RemovingStale; LoggingIn; ResolvingSourceDir; Linking].

Definition start (w : world) : state := State w [] [].

(** What [linkOne] does to the destination entry, whose content was [o],
    when [unlink] is not denied: the identity of the new entry (if any) and
    the completion. *)
Definition notDir (o : option node) : bool :=
  match o with Some (Dir _) => false | _ => true end.

Definition linkOne_result (fl : faults) (ino : N) (o : option node)
    : option node * completion unit :=
  if link_fails fl ino then ((if notDir o then None else o), Throw "EXDEV")
  else if notDir o then (Some (File ino), Return ())
  else (o, Throw "EEXIST").

(** Two album directories with the same subdirectories. *)
Definition same_dirs (a b : gmap string node) : Prop :=
  ∀ n, a !! n = b !! n ∨ (notDir (a !! n) = true ∧ notDir (b !! n) = true).

(** The environment in which [link] fails for the source file [ino0]
    only. *)
Definition link_denied (ino0 : N) : faults :=
  Faults (fun _ => false) (fun _ => false) (fun ino => bool_decide (ino = ino0)).

(** The source tree of the scenario, for any three source files. *)
Definition scenario_tree (cover log nfo : N) : list (string * node) :=
  [("cover.jpg", File cover);
   ("disc1", Dir [("log.log", File log); ("readme.nfo", File nfo)])].

(** The directory with the names [ds] lies above (or is) the directory of
    every path of the list. *)
Definition common_dir (paths : list string) (ds : list string) : Prop :=
  ∀ p, p ∈ paths → ds `prefix_of` Path.parent_segments p.

(** The split directory of an absolute path, after the empty name that
    stands before the root's separator. *)
Definition split_tail (p : string) : list string :=
  match Path.parent_segments p with
  | [] => [""]
  | ds => ds
  end.

(** [console.error] in the [catch] block of the handler. *)
Definition logged (s : state) (msg : string) : state :=
  State (fs s) (entered s) (errors s ++ ["Error processing webhook: " +:+ msg]).

(** The status the handler sends, as the code decides it from the body
    alone. *)
Definition status_of (body : payload) : Z :=
  if bool_decide (eventType body = Some "Test") then 200
  else match trackFiles body with
       | None => 400
       | Some _ => if noDownloadId body then 400 else 200
       end.

(** A torrent client that accepts the login and knows one torrent,
    [known], saved under [save_path] with the files [files]. *)
Definition one_torrent (known save_path : string) (files : list string)
    : qbittorrent :=
  Qbittorrent (Return ("Ok.", Some ["SID=1"]))
    (fun id => Return (if decide (id = known) then [save_path] else []))
    (fun id => Return (if decide (id = known) then files else [])).

(** An album directory with one track and one stale extra, and a download
    folder with the scenario's tree. *)
Definition example_world : world :=
  World {["/music/Artist/Album" := {["01.flac" := File 8; "old.log" := File 7]}]}
        {["/downloads/Album" := scenario_tree 1 2 3]}.

Definition example_config (fl : faults) : config :=
  Config (Some [Mapping "/data" "/downloads"]) "/srv" fl
    (one_torrent "abc" "/data"
       ["Album/cover.jpg"; "Album/disc1/log.log"; "Album/disc1/readme.nfo"]).

Definition example_body (id : string) : payload :=
  Payload (Some "Download") (Some [Track "/music/Artist/Album/01.flac"])
    (Some id).

(** A library whose tracks lie directly in the root directory, beside an
    extra. *)
Definition root_world : world :=
  World {["/" := {["01.flac" := File 8; "02.flac" := File 9;
                   "cover.jpg" := File 5]}]}
        ∅.

Definition root_body : payload :=
  Payload (Some "Download") (Some [Track "/01.flac"; Track "/02.flac"])
    (Some "unknown").

(** A name with no extension separator: no "." after its first
    character. *)
Definition no_ext_separator (name : string) : Prop :=
  ∀ i, (0 < i)%nat → String.get i name ≠ Some Js.dot.

(** A name of a normalised path: not empty and without separator. *)
Definition segment_ok (s : string) : Prop :=
  s ≠ "" ∧ Js.has_char Js.slash s = false.

(** A plain name: not empty, not "." or "..", without separator. *)
Definition plain_name (s : string) : Prop :=
  s ≠ "" ∧ s ≠ "." ∧ s ≠ ".." ∧ Js.has_char Js.slash s = false.


(** The variables of the [extname] loop at the same character of a name and
    of the name with [k] characters put before it: the indices recorded so
    far are moved by [k]. *)
Definition ext_shifted (k : Z) (st st' : Path.ext_state) : Prop :=
  -1 ≤ Path.startDot st ∧ -1 ≤ Path.endIdx st
  ∧ (Path.startDot st ≠ -1 → Path.endIdx st ≠ -1)
  ∧ Path.startDot st'
    = (if Path.startDot st =? -1 then -1 else Path.startDot st + k)
  ∧ Path.endIdx st'
    = (if Path.endIdx st =? -1 then -1 else Path.endIdx st + k)
  ∧ Path.matchedSlash st' = Path.matchedSlash st
  ∧ Path.preDotState st' = Path.preDotState st.

(** The album directory after the link operations [ops], when each of them
    succeeds: every operation puts its source file under its name, a later
    one over an earlier one of the same name. *)
Definition linked (ops : list (string * N)) (d : gmap string node)
    : gmap string node :=
  foldl (fun acc op => <[op.1 := File op.2]> acc) d ops.


(** The directories [w] with the album directory at [a] replaced by [d]. *)
Definition setAlbum (w : world) (a : string) (d : gmap string node) : world :=
  World (<[a := d]> (albums w)) (downloads w).

(** What a run that passes the checks of the handler does to the
    directories, read off the [try] block: nothing when the album directory
    is not resolved or cannot be listed; the stale-extras removal alone when
    the login, the source-directory resolution or the listing of the source
    directory fails; the removal and then the walk otherwise (whether the
    walk throws or not). *)
Definition importEffect (cfg : config) (tracks : list track)
    (downloadId : string) (w : world) : world :=
  match findCommonParentDir (cwd cfg) (map path tracks) with
  | Return (JStr (String c r)) =>
      let albumPath := String c r in
      match albums w !! albumPath with
      | None => w
      | Some d =>
          let d1 := removeExistingExtras (io cfg) d in
          match qbtLogin cfg with
          | Throw _ => setAlbum w albumPath d1
          | Return cookie =>
              match getTorrentFolder cfg downloadId cookie with
              | Throw _ => setAlbum w albumPath d1
              | Return originalDir =>
                  match downloads w !! originalDir with
                  | None => setAlbum w albumPath d1
                  | Some entries =>
                      setAlbum w albumPath
                        (linkExtrasRecursive (io cfg) entries "" d1).1
                  end
              end
          end
      end
  | _ => w
  end.

(** * Properties *)

(** ** Evaluations on concrete inputs *)

Example isExtraFile_cover : isExtraFile "cover.JPG" = true.
Proof. reflexivity. Qed.

Example isExtraFile_nfo : isExtraFile "readme.nfo" = false.
Proof. reflexivity. Qed.

Example extname_dotfile : Path.extname ".log" = "".
Proof. reflexivity. Qed.

Example findCommonParentDir_album :
  findCommonParentDir "/srv"
    ["/music/Artist/Album/01.flac"; "/music/Artist/Album/02.flac"]
  = Return (JStr "/music/Artist/Album").
Proof. reflexivity. Qed.

Example findCommonParentDir_no_common :
  findCommonParentDir "/srv" ["/a/x.flac"; "/b/y.flac"] = Return (JStr "").
Proof. reflexivity. Qed.

Example findCommonParentDir_root_files :
  findCommonParentDir "/srv" ["/x.flac"; "/y.flac"] = Return (JStr "/").
Proof. reflexivity. Qed.

Example applyPathMappings_plain :
  applyPathMappings "/downloads/a" (Some [Mapping "/downloads" "/data"])
  = "/data/a".
Proof. reflexivity. Qed.

Example applyPathMappings_dollar :
  applyPathMappings "/downloads/a" (Some [Mapping "/downloads" "/data/$&"])
  = "/data//downloads/a".
Proof. reflexivity. Qed.

Example plan_scenario :
  plan "" (scenario_tree 1 2 3) = [("cover.jpg", 1%N); ("disc1-log.log", 2%N)].
Proof. reflexivity. Qed.

(** ** The extras classifier *)

Lemma ext_char_other c i st :
  c ≠ Js.dot → Path.startDot st = -1 →
  Path.startDot (Path.ext_char c i st) = -1
  ∧ Path.preDotState (Path.ext_char c i st) = Path.preDotState st.
Proof.
  intros Hc Hs. unfold Path.ext_char.
  destruct (decide (c = Js.dot)) as [|_]; [done|].
  destruct (Path.endIdx st =? -1); simpl; rewrite Hs; simpl; done.
Qed.

Lemma ext_char_first_dot i st :
  Path.startDot st = -1 →
  Path.startDot (Path.ext_char Js.dot i st) = i
  ∧ Path.preDotState (Path.ext_char Js.dot i st) = Path.preDotState st.
Proof.
  intros Hs. unfold Path.ext_char.
  destruct (decide (Js.dot = Js.dot)) as [_|]; [|done].
  destruct (Path.endIdx st =? -1); simpl; rewrite Hs; simpl; done.
Qed.

(** As long as no dot has been met, the loop leaves [startDot] at [-1], or
    meets the dot at index [0] with nothing recorded before it. *)
Lemma extname_loop_no_separator p n st :
  no_ext_separator p →
  Path.startDot st = -1 → Path.preDotState st = 0 →
  Path.startDot (Path.extname_loop p n st) = -1
  ∨ Path.preDotState (Path.extname_loop p n st) = 0.
Proof.
  intros Hp. revert st.
  induction n as [|i IH]; intros st Hs Hd; cbn [Path.extname_loop].
  - by left.
  - unfold Js.charCodeAt. destruct (String.get i p) as [c|] eqn:Hg; [|by left].
    destruct (decide (c = Js.slash)) as [->|Hns].
    + destruct (negb (Path.matchedSlash st)); [by left|by apply IH].
    + destruct (decide (c = Js.dot)) as [->|Hnd].
      * destruct i as [|i].
        -- cbn [Path.extname_loop Z.of_nat]. right.
           destruct (ext_char_first_dot (Z.of_nat 0) st Hs) as [_ ->]. done.
        -- exfalso. apply (Hp (S i)); [lia|done].
      * destruct (ext_char_other c (Z.of_nat i) st Hnd Hs) as [H1 H2].
        apply IH; [done|by rewrite H2].
Qed.

Lemma extname_no_separator p : no_ext_separator p → Path.extname p = "".
Proof.
  intros Hp. unfold Path.extname.
  destruct (extname_loop_no_separator p (String.length p) Path.ext_init Hp)
    as [-> | ->]; try done.
  simpl. by rewrite orb_true_r.
Qed.

Lemma isExtraFile_no_separator name :
  no_ext_separator name → isExtraFile name = false.
Proof.
  intros Hp. unfold isExtraFile. by rewrite extname_no_separator.
Qed.

(** ** Stale-extras removal, entry by entry *)

Lemma removed_idemp fl name o :
  removed fl name (removed fl name o) = removed fl name o.
Proof.
  unfold removed. destruct o as [e|]; [|done].
  destruct (negb (lstat_fails fl name) && isFile e && isExtraFile name
            && negb (unlink_fails fl name)) eqn:E; [done|by rewrite E].
Qed.

Lemma removed_dir fl name es : removed fl name (Some (Dir es)) = Some (Dir es).
Proof. unfold removed. simpl. by rewrite andb_false_r. Qed.

Lemma removed_Some_dir fl name o es :
  removed fl name o = Some (Dir es) → o = Some (Dir es).
Proof.
  unfold removed. destruct o as [e|]; [|done].
  by destruct (negb (lstat_fails fl name) && isFile e && isExtraFile name
               && negb (unlink_fails fl name)).
Qed.

(** One round of the loop changes the entry [file] only. *)
Lemma removeExistingExtras_round fl d file n :
  match Fs.lstat fl d file with
  | Return st =>
      if isFile st && isExtraFile file then fst (Fs.unlink fl d file) else d
  | Throw _ => d
  end !! n
  = if decide (n = file) then removed fl file (d !! file) else d !! n.
Proof.
  unfold Fs.lstat, Fs.unlink, removed.
  destruct (lstat_fails fl file) eqn:Hl; simpl.
  { destruct (decide (n = file)) as [->|]; [|done]. by destruct (d !! file). }
  destruct (d !! file) as [e|] eqn:He; simpl.
  - destruct (isFile e && isExtraFile file) eqn:Hx; simpl.
    + destruct (unlink_fails fl file) eqn:Hu; simpl.
      * destruct (decide (n = file)) as [->|]; done.
      * destruct e as [ino|es|]; simpl in *; try done.
        destruct (decide (n = file)) as [->|Hne].
        -- by rewrite lookup_delete_eq.
        -- by rewrite lookup_delete_ne.
    + destruct (decide (n = file)) as [->|]; done.
  - destruct (decide (n = file)) as [->|]; done.
Qed.

Lemma removeExistingExtras_loop_lookup fl files d n :
  removeExistingExtras_loop fl files d !! n
  = if decide (n ∈ files) then removed fl n (d !! n) else d !! n.
Proof.
  revert d. induction files as [|file rest IH]; intros d; simpl.
  - destruct (decide (n ∈ [])) as [H|]; [|done]. by apply elem_of_nil in H.
  - rewrite IH. rewrite removeExistingExtras_round.
    destruct (decide (n = file)) as [->|Hne].
    + destruct (decide (file ∈ file :: rest)) as [_|H];
        [|exfalso; apply H; by left].
      destruct (decide (file ∈ rest)); [apply removed_idemp|done].
    + destruct (decide (n ∈ rest)) as [Hin|Hnin].
      * destruct (decide (n ∈ file :: rest)) as [_|H];
          [done|exfalso; apply H; by right].
      * destruct (decide (n ∈ file :: rest)) as [H|_]; [|done].
        apply elem_of_cons in H as [?|?]; done.
Qed.

Lemma readdir_elem_of (d : gmap string node) n :
  n ∈ Fs.readdir d ↔ is_Some (d !! n).
Proof.
  unfold Fs.readdir. rewrite list_elem_of_fmap. split.
  - intros [[k e] [-> H]]. apply elem_of_map_to_list in H. by exists e.
  - intros [e He]. exists (n, e). split; [done|]. by apply elem_of_map_to_list.
Qed.

(** [removeExistingExtras] acts on every entry by [removed]. *)
Lemma removeExistingExtras_lookup fl (d : gmap string node) n :
  removeExistingExtras fl d !! n = removed fl n (d !! n).
Proof.
  unfold removeExistingExtras. rewrite removeExistingExtras_loop_lookup.
  destruct (decide (n ∈ Fs.readdir d)) as [_|H]; [done|].
  destruct (d !! n) as [e|] eqn:He; [|done].
  exfalso. apply H, readdir_elem_of. by exists e.
Qed.

(** ** The walk and its list of link operations *)

Lemma linkEntry_dir fl base name es d :
  linkEntry fl base name (Dir es) d
  = linkExtrasRecursive fl es (flatName base name) d.
Proof.
  cbn [linkEntry]. revert d.
  induction es as [|[n e] rest IH]; intros d; [done|].
  cbn [linkExtrasRecursive].
  destruct (linkEntry fl (flatName base name) n e d) as [d' [[]|msg]]; [|done].
  apply IH.
Qed.

Lemma planEntry_dir base name es :
  planEntry base name (Dir es) = plan (flatName base name) es.
Proof.
  cbn [planEntry]. induction es as [|[n e] rest IH]; [done|].
  cbn [plan]. by rewrite IH.
Qed.

Lemma runPlan_app fl ops1 ops2 d :
  runPlan fl (ops1 ++ ops2) d
  = match runPlan fl ops1 d with
    | (d', Return _) => runPlan fl ops2 d'
    | (d', Throw msg) => (d', Throw msg)
    end.
Proof.
  revert d. induction ops1 as [|[n i] rest IH]; intros d; [done|].
  simpl. destruct (linkOne fl d i n) as [d' [[]|msg]]; [apply IH|done].
Qed.

Lemma linkExtrasRecursive_app fl es1 es2 base d :
  linkExtrasRecursive fl (es1 ++ es2) base d
  = match linkExtrasRecursive fl es1 base d with
    | (d', Return _) => linkExtrasRecursive fl es2 base d'
    | (d', Throw msg) => (d', Throw msg)
    end.
Proof.
  revert d. induction es1 as [|[n e] rest IH]; intros d; [done|].
  simpl. destruct (linkEntry fl base n e d) as [d' [[]|msg]]; [apply IH|done].
Qed.

(** The walk of one entry runs the link operations of its plan. *)
Lemma linkEntry_plan fl e : ∀ base name d,
  linkEntry fl base name e d = runPlan fl (planEntry base name e) d.
Proof.
  induction e as [ino| |es IH] using node_ind; intros base name d.
  - simpl. destruct (isExtraFile name); [|done].
    simpl. by destruct (linkOne fl d ino (flatName base name)) as [d' [[]|msg]].
  - done.
  - rewrite linkEntry_dir, planEntry_dir.
    generalize (flatName base name) as b. intros b. revert d.
    induction IH as [|[n e] rest He _ IHrest]; intros d; [done|].
    cbn [linkExtrasRecursive plan]. rewrite runPlan_app.
    simpl in He. rewrite He.
    destruct (runPlan fl (planEntry b n e) d) as [d' [[]|msg]]; [apply IHrest|done].
Qed.

(** The walk of a directory runs the link operations of its plan. *)
Lemma linkExtrasRecursive_plan fl es base (d : gmap string node) :
  linkExtrasRecursive fl es base d = runPlan fl (plan base es) d.
Proof.
  revert d. induction es as [|[n e] rest IH]; intros d; [done|].
  cbn [linkExtrasRecursive plan]. rewrite runPlan_app, linkEntry_plan.
  destruct (runPlan fl (planEntry base n e) d) as [d' [[]|msg]]; [apply IH|done].
Qed.

(** The recursive walk performs exactly the link operations of the
    depth-first plan of the tree, one after the other, up to the first that
    throws. *)
Theorem linkExtrasRecursive_runs_plan fl entries base (d : gmap string node) :
  linkExtrasRecursive fl entries base d = runPlan fl (plan base entries) d.
Proof. apply linkExtrasRecursive_plan. Qed.

(** ** One link operation, entry by entry *)

Lemma linkOne_spec fl (d : gmap string node) ino n0 :
  (∀ n, unlink_fails fl n = false) →
  (linkOne fl d ino n0).2 = (linkOne_result fl ino (d !! n0)).2
  ∧ ∀ n, (linkOne fl d ino n0).1 !! n
         = if decide (n = n0) then (linkOne_result fl ino (d !! n0)).1
           else d !! n.
Proof.
  intros Hu. unfold linkOne, Fs.unlink, Fs.link, linkOne_result.
  rewrite Hu. destruct (link_fails fl ino) eqn:Hl.
  - destruct (d !! n0) as [[i|es|]|] eqn:Hd; simpl; (split; [done|]);
      intros n; destruct (decide (n = n0)) as [->|Hne]; try done;
      rewrite ?lookup_delete_eq, ?lookup_delete_ne; done.
  - destruct (d !! n0) as [[i|es|]|] eqn:Hd; simpl;
      rewrite ?lookup_delete_eq, ?Hd; simpl; (split; [done|]);
      intros n; destruct (decide (n = n0)) as [->|Hne]; try done;
      rewrite ?lookup_insert_eq, ?lookup_insert_ne, ?lookup_delete_ne; done.
Qed.

Lemma linkOne_result_same fl ino o1 o2 :
  o1 = o2 ∨ (notDir o1 = true ∧ notDir o2 = true) →
  linkOne_result fl ino o1 = linkOne_result fl ino o2.
Proof.
  intros [->|[H1 H2]]; [done|]. unfold linkOne_result. by rewrite H1, H2.
Qed.

Lemma linkOne_result_dir fl ino o es :
  (linkOne_result fl ino o).1 = Some (Dir es) ↔ o = Some (Dir es).
Proof.
  unfold linkOne_result.
  destruct (link_fails fl ino); destruct o as [[i|es'|]|]; simpl; naive_solver.
Qed.

(** The walk neither creates nor removes a subdirectory of the album
    directory. *)
Lemma runPlan_dirs fl ops : ∀ (a : gmap string node) n es,
  (∀ n, unlink_fails fl n = false) →
  (runPlan fl ops a).1 !! n = Some (Dir es) ↔ a !! n = Some (Dir es).
Proof.
  induction ops as [|[n0 i] rest IH]; intros a n es Hu; [done|].
  cbn [runPlan]. destruct (linkOne_spec fl a i n0 Hu) as [Hc Hs].
  destruct (linkOne fl a i n0) as [a1 c] eqn:Ea. simpl in Hc, Hs.
  assert (a1 !! n = Some (Dir es) ↔ a !! n = Some (Dir es)) as Hstep.
  { rewrite Hs. destruct (decide (n = n0)) as [->|]; [|done].
    apply linkOne_result_dir. }
  destruct c as [[]|msg]; [|done]. by rewrite IH.
Qed.

(** From two album directories with the same subdirectories the walk ends
    the same way, and every entry it has touched is the same in both. *)
Lemma runPlan_sim fl ops : ∀ (a b : gmap string node),
  (∀ n, unlink_fails fl n = false) →
  same_dirs a b →
  (runPlan fl ops a).2 = (runPlan fl ops b).2
  ∧ ∀ n, (runPlan fl ops a).1 !! n = (runPlan fl ops b).1 !! n
         ∨ ((runPlan fl ops a).1 !! n = a !! n
            ∧ (runPlan fl ops b).1 !! n = b !! n).
Proof.
  induction ops as [|[n0 i] rest IH]; intros a b Hu Hab.
  { split; [done|]. intros n. by right. }
  cbn [runPlan].
  destruct (linkOne_spec fl a i n0 Hu) as [Hca Hsa].
  destruct (linkOne_spec fl b i n0 Hu) as [Hcb Hsb].
  rewrite <- (linkOne_result_same fl i _ _ (Hab n0)) in Hcb, Hsb.
  destruct (linkOne fl a i n0) as [a1 ca] eqn:Ea.
  destruct (linkOne fl b i n0) as [b1 cb] eqn:Eb.
  simpl in Hca, Hsa, Hcb, Hsb.
  assert (ca = cb) as <- by congruence.
  assert (a1 !! n0 = b1 !! n0) as Hn0.
  { rewrite Hsa, Hsb. by destruct (decide (n0 = n0)). }
  assert (∀ n, n ≠ n0 → a1 !! n = a !! n ∧ b1 !! n = b !! n) as Hne.
  { intros n H. rewrite Hsa, Hsb. by destruct (decide (n = n0)). }
  assert (same_dirs a1 b1) as Hab1.
  { intros n. destruct (decide (n = n0)) as [->|H]; [by left|].
    destruct (Hne n H) as [-> ->]. apply Hab. }
  destruct ca as [[]|msg].
  - destruct (IH a1 b1 Hu Hab1) as [Hc Hs]. split; [done|].
    intros n. destruct (Hs n) as [H|[H1 H2]]; [by left|].
    destruct (decide (n = n0)) as [->|H].
    + left. by rewrite H1, H2.
    + right. destruct (Hne n H) as [<- <-]. done.
  - split; [done|]. intros n. simpl.
    destruct (decide (n = n0)) as [->|H]; [by left|right; by apply Hne].
Qed.

(** ** Claims on the extras walk and the stale-extras removal *)

(** C2, as the specification states it, fails: with two extras in the source
    directory and a [link] that is refused for the first only, the walk
    throws at the first file and the second, whose own link would have
    succeeded, is not linked. *)
Lemma link_failure_stops_walk_example :
  isExtraFile "b.log" = true
  ∧ link_fails (link_denied 1) 2 = false
  ∧ linkExtrasRecursive (link_denied 1)
      [("a.log", File 1); ("b.log", File 2)] "" ∅
    = (∅, Throw "EXDEV")
  ∧ linkExtrasRecursive no_faults [("b.log", File 2)] "" ∅
    = ({["b.log" := File 2]}, Return ()).
Proof. vm_compute. done. Qed.

(** C2 (amended): a failure of [fs.link] is not caught inside the walk.  When
    the link operations of the tree are [pre], then the one for source file
    [ino] to [destFile], then [post], the operations of [pre] all succeed and
    [link] is refused for [ino], the walk throws at that file: the album
    directory is left as the operations of [pre] made it, less the entry
    [destFile] that was unlinked for the failed link, and no operation of
    [post] is run. *)
Theorem linkExtrasRecursive_link_failure fl entries base
    (d d1 : gmap string node) pre destFile ino post :
  plan base entries = pre ++ (destFile, ino) :: post →
  runPlan fl pre d = (d1, Return ()) →
  link_fails fl ino = true →
  linkExtrasRecursive fl entries base d
  = ((Fs.unlink fl d1 destFile).1, Throw "EXDEV").
Proof.
  intros Hplan Hpre Hfail.
  rewrite linkExtrasRecursive_plan, Hplan, runPlan_app, Hpre.
  cbn [runPlan]. unfold linkOne, Fs.link. by rewrite Hfail.
Qed.

(** The link of [sub/b.log] is refused: [a.log] stays linked and [c.log] is
    not reached. *)
Lemma linkExtrasRecursive_link_failure_witness :
  linkExtrasRecursive (link_denied 2)
    [("a.log", File 1); ("sub", Dir [("b.log", File 2)]); ("c.log", File 3)]
    "" ∅
  = ({["a.log" := File 1]}, Throw "EXDEV").
Proof.
  rewrite (linkExtrasRecursive_link_failure (link_denied 2) _ "" ∅
             {["a.log" := File 1]} [("a.log", 1%N)] "sub-b.log" 2%N
             [("c.log", 3%N)]); [| vm_compute; done ..].
  vm_compute. done.
Defined.



(** C8: [removeExistingExtras] removes from the album directory exactly the
    entries that are regular files with an extras name; an entry that is
    not an extra, a directory (with everything below it) or any other kind
    of entry is left as it was, and no entry appears.  When [lstat] or
    [unlink] is refused for an entry, that entry stays, and still nothing
    else is touched. *)
Theorem removeExistingExtras_exact fl (d : gmap string node) name :
  removeExistingExtras no_faults d !! name
  = match d !! name with
    | Some (File ino) => if isExtraFile name then None else Some (File ino)
    | Some (Dir es) => Some (Dir es)
    | Some Other => Some Other
    | None => None
    end
  ∧ (removeExistingExtras fl d !! name = d !! name
     ∨ removeExistingExtras fl d !! name
       = removeExistingExtras no_faults d !! name).
Proof.
  rewrite !removeExistingExtras_lookup. unfold removed. simpl. split.
  - destruct (d !! name) as [[i|es|]|]; simpl; try done.
    by destruct (isExtraFile name).
  - destruct (d !! name) as [[i|es|]|]; simpl;
      destruct (lstat_fails fl name), (isExtraFile name),
        (unlink_fails fl name); simpl; auto.
Qed.

(** C9: the scenario of the specification.  The tree with [cover.jpg],
    [disc1/log.log] and [disc1/readme.nfo], synced into an empty album
    directory, gives exactly [cover.jpg] and [disc1-log.log], each a link to
    its source file; [readme.nfo] is not an extra. *)
Theorem scenario_flattened cover log nfo :
  syncExtras no_faults (scenario_tree cover log nfo) ∅
  = ({["cover.jpg" := File cover; "disc1-log.log" := File log]}, Return ())
  ∧ flatName "disc1" "log.log" = "disc1-log.log"
  ∧ isExtraFile "readme.nfo" = false.
Proof. vm_compute. done. Qed.

(** C10: a file name with no extension separator after its first character
    (no dot at all, or a dotfile such as [.log] or [.cue]) is not an extra:
    [removeExistingExtras] leaves an entry of that name as it is, and the
    walk passes over a source file of that name, in whatever directory of
    the tree it lies. *)
Theorem isExtraFile_no_separator_skipped name :
  no_ext_separator name →
  isExtraFile name = false
  ∧ (∀ fl (d : gmap string node),
       removeExistingExtras fl d !! name = d !! name)
  ∧ (∀ fl pre ino post base (d : gmap string node),
       linkExtrasRecursive fl (pre ++ (name, File ino) :: post) base d
       = linkExtrasRecursive fl (pre ++ post) base d).
Proof.
  intros Hn. pose proof (isExtraFile_no_separator name Hn) as Hx.
  split; [done|]. split.
  - intros fl d. rewrite removeExistingExtras_lookup. unfold removed.
    destruct (d !! name) as [e|]; [|done].
    by rewrite Hx, andb_false_r.
  - intros fl pre ino post base d.
    rewrite !linkExtrasRecursive_app.
    destruct (linkExtrasRecursive fl pre base d) as [d' [[]|msg]]; [|done].
    cbn [linkExtrasRecursive linkEntry]. by rewrite Hx.
Qed.

(** The only dot of [.log] is its first character. *)
Lemma dotfile_no_ext_separator : no_ext_separator ".log".
Proof.
  intros i Hi. do 5 (destruct i as [|i]; [try lia; try discriminate|]).
  discriminate.
Qed.

(** The dotfile [.log] is no extra and survives the removal. *)
Lemma isExtraFile_no_separator_skipped_witness :
  isExtraFile ".log" = false
  ∧ removeExistingExtras no_faults {[".log" := File 1]} !! ".log"
    = Some (File 1).
Proof.
  destruct (isExtraFile_no_separator_skipped ".log" dotfile_no_ext_separator)
    as (H1 & H2 & _).
  split; [exact H1|]. rewrite H2. reflexivity.
Defined.

(** ** Strings *)

Lemma app_String a s t : String a s +:+ t = String a (s +:+ t).
Proof. reflexivity. Qed.

Lemma app_empty_l t : "" +:+ t = t.
Proof. reflexivity. Qed.

Lemma app_empty_r s : s +:+ "" = s.
Proof. induction s as [|a s IH]; [done|]. by rewrite app_String, IH. Qed.

Lemma app_assoc_str s t u : (s +:+ t) +:+ u = s +:+ (t +:+ u).
Proof. induction s as [|a s IH]; [done|]. by rewrite !app_String, IH. Qed.

Lemma length_app_str s t :
  String.length (s +:+ t) = (String.length s + String.length t)%nat.
Proof. induction s as [|a s IH]; [done|]. rewrite app_String. simpl. lia. Qed.

Lemma get_app_r s t k :
  String.get (String.length s + k) (s +:+ t) = String.get k t.
Proof. induction s as [|a s IH]; [done|]. rewrite app_String. simpl. done. Qed.

Lemma substring_all s : String.substring 0 (String.length s) s = s.
Proof. induction s as [|a s IH]; [done|]. simpl. by rewrite IH. Qed.

Lemma substring_app_l s t :
  String.substring 0 (String.length s) (s +:+ t) = s.
Proof.
  induction s as [|a s IH]; [by destruct t|].
  rewrite app_String. simpl. by rewrite IH.
Qed.

Lemma substring_app_r s t :
  String.substring (String.length s)
    (String.length (s +:+ t) - String.length s) (s +:+ t) = t.
Proof.
  induction s as [|a s IH].
  - rewrite app_empty_l. simpl. rewrite Nat.sub_0_r. apply substring_all.
  - rewrite app_String. simpl. apply IH.
Qed.

Lemma prefix_app p r : String.prefix p (p +:+ r) = true.
Proof.
  induction p as [|a p IH]; [by destruct r|].
  rewrite app_String. simpl. by destruct (ascii_dec a a).
Qed.

Lemma index_prefix p s :
  String.prefix p s = true → String.index 0 p s = Some 0%nat.
Proof.
  destruct s as [|b s]; simpl.
  - by destruct p.
  - intros H. destruct p as [|a p]; [done|]. by rewrite H.
Qed.

Lemma getSubstitution_no_dollar matched before after repl :
  Js.has_char Js.dollar repl = false →
  Js.getSubstitution matched before after repl = repl.
Proof.
  induction repl as [|a r IH]; [done|]. simpl. intros H.
  apply orb_false_iff in H as [Ha Hr]. apply bool_decide_eq_false in Ha.
  destruct (decide (a = Js.dollar)); [done|]. by rewrite IH.
Qed.

(** Without "$" in the replacement, [replace] on a string that starts with
    the pattern puts the replacement in the place of that prefix. *)
Lemma replace_prefix p r repl :
  Js.has_char Js.dollar repl = false →
  Js.replace (p +:+ r) p repl = repl +:+ r.
Proof.
  intros H. unfold Js.replace.
  rewrite (index_prefix _ _ (prefix_app p r)).
  rewrite getSubstitution_no_dollar by done.
  replace (String.substring 0 0 (p +:+ r)) with "" by (by destruct (p +:+ r)).
  rewrite app_empty_l. simpl. by rewrite substring_app_r.
Qed.

(** ** Path mappings *)

(** C6 on rules without "$" in [to]: the first rule whose [from] is a prefix
    of the path is the one applied, the prefix is replaced by [to] and
    nothing else changes; later rules are not looked at; a path that no rule
    matches is returned as it is. *)
Theorem applyPathMappings_first_match inputPath pre m post rest :
  Forall (fun m' => Js.startsWith inputPath (from m') = false) pre →
  inputPath = from m +:+ rest →
  Js.has_char Js.dollar (to m) = false →
  applyPathMappings inputPath (Some (pre ++ m :: post)) = to m +:+ rest.
Proof.
  intros Hpre -> Hto. simpl.
  induction Hpre as [|m' pre Hm' _ IH]; simpl.
  - unfold Js.startsWith. rewrite prefix_app. by apply replace_prefix.
  - by rewrite Hm'.
Qed.

(** Of two rules that match, the first is applied. *)
Lemma applyPathMappings_first_match_witness :
  applyPathMappings "/downloads/music/a"
    (Some [Mapping "/data" "/x"; Mapping "/downloads" "/mnt/dl";
           Mapping "/downloads/music" "/mnt/music"])
  = "/mnt/dl/music/a".
Proof.
  apply (applyPathMappings_first_match "/downloads/music/a"
           [Mapping "/data" "/x"] (Mapping "/downloads" "/mnt/dl")
           [Mapping "/downloads/music" "/mnt/music"] "/music/a").
  - repeat constructor.
  - reflexivity.
  - reflexivity.
Defined.

(** C6, the path that no rule matches: when no rule's [from] is a prefix of
    the path, the path is returned as it is. *)
Theorem applyPathMappings_no_match inputPath ms :
  Forall (fun m => Js.startsWith inputPath (from m) = false) ms →
  applyPathMappings inputPath (Some ms) = inputPath.
Proof.
  intros H. simpl. induction H as [|m ms Hm _ IH]; [done|].
  simpl. by rewrite Hm.
Qed.

(** No rule matches: the path comes back as it is. *)
Lemma applyPathMappings_no_match_witness :
  applyPathMappings "/srv/a" (Some [Mapping "/downloads" "/mnt/dl"])
  = "/srv/a".
Proof.
  apply (applyPathMappings_no_match "/srv/a" [Mapping "/downloads" "/mnt/dl"]).
  repeat constructor.
Defined.

(** C6 breaks on a rule whose [to] holds "$&" or "$$": [String.replace]
    reads them as replacement patterns, so the prefix is not replaced by
    [to] as it is written. *)
Theorem applyPathMappings_dollar_patterns :
  applyPathMappings "/downloads/Album"
    (Some [Mapping "/downloads" "/mnt/$&"])
  = "/mnt//downloads/Album"
  ∧ applyPathMappings "/downloads/Album"
      (Some [Mapping "/downloads" "/mnt/a$$b"])
    = "/mnt/a$b/Album".
Proof. split; reflexivity. Qed.

(** ** Splitting and joining *)

Lemma split_nonempty c s : Js.split c s ≠ [].
Proof.
  destruct s as [|a s]; [done|]. simpl.
  destruct (decide (a = c)); [done|]. by destruct (Js.split c s).
Qed.

Lemma split_app_sep c a b :
  Js.split c (a +:+ String c b) = Js.split c a ++ Js.split c b.
Proof.
  induction a as [|x a IH].
  - rewrite app_empty_l. simpl. by destruct (decide (c = c)).
  - rewrite app_String. simpl. rewrite IH.
    destruct (decide (x = c)); [done|].
    pose proof (split_nonempty c a). by destruct (Js.split c a).
Qed.

Lemma split_no_sep c s : Js.has_char c s = false → Js.split c s = [s].
Proof.
  induction s as [|a s IH]; [done|]. simpl. intros H.
  apply orb_false_iff in H as [Ha Hs]. apply bool_decide_eq_false in Ha.
  destruct (decide (a = c)); [done|]. by rewrite IH.
Qed.

Lemma split_elems c s : Forall (fun x => Js.has_char c x = false) (Js.split c s).
Proof.
  induction s as [|a s IH]; simpl.
  - by constructor.
  - destruct (decide (a = c)); [by constructor|].
    destruct (Js.split c s) as [|h t].
    + constructor; [|constructor].
      simpl. by rewrite bool_decide_eq_false_2.
    + inversion IH; subst. constructor; [|done].
      simpl. by rewrite bool_decide_eq_false_2.
Qed.

Lemma join_cons sep x y r :
  Js.join sep (x :: y :: r) = x +:+ sep +:+ Js.join sep (y :: r).
Proof. reflexivity. Qed.

Lemma join_cons_String sep a h t :
  Js.join sep (String a h :: t) = String a (Js.join sep (h :: t)).
Proof. by destruct t. Qed.

Lemma join_split c s : Js.join (String c "") (Js.split c s) = s.
Proof.
  induction s as [|a s IH]; [done|]. simpl.
  pose proof (split_nonempty c s) as Hne.
  destruct (decide (a = c)) as [->|].
  - destruct (Js.split c s) as [|h t]; [done|].
    rewrite join_cons, IH. done.
  - destruct (Js.split c s) as [|h t]; [done|].
    by rewrite join_cons_String, IH.
Qed.

Lemma join_snoc sep init last :
  init ≠ [] → Js.join sep (init ++ [last]) = Js.join sep init +:+ sep +:+ last.
Proof.
  induction init as [|x init IH]; [done|]. intros _.
  destruct init as [|y init]; [done|].
  change ((x :: y :: init) ++ [last]) with (x :: (y :: init) ++ [last]).
  change ((y :: init) ++ [last]) with (y :: (init ++ [last])) at 1.
  rewrite join_cons.
  change (y :: init ++ [last]) with ((y :: init) ++ [last]).
  rewrite IH by done. rewrite join_cons. by rewrite !app_assoc_str.
Qed.

Lemma split_join ds :
  ds ≠ [] → Forall segment_ok ds →
  Js.split Js.slash (Js.join "/" ds) = ds.
Proof.
  induction ds as [|x ds IH]; [done|]. intros _ H.
  inversion H as [|? ? [_ Hx] Hds]; subst.
  destruct ds as [|y ds]; [by apply split_no_sep|].
  rewrite join_cons. change ("/" +:+ Js.join "/" (y :: ds))
    with (String Js.slash (Js.join "/" (y :: ds))).
  rewrite split_app_sep, split_no_sep by done. by rewrite IH.
Qed.

Lemma split_of_segments ds :
  ds ≠ [] → Forall segment_ok ds →
  Js.split Js.slash (Path.of_segments ds) = "" :: ds.
Proof.
  intros Hne H. unfold Path.of_segments.
  change ("/" +:+ Js.join "/" ds) with ("" +:+ String Js.slash (Js.join "/" ds)).
  rewrite split_app_sep, split_join by done. done.
Qed.

(** ** Normalised paths *)

Lemma norm_step_ok b stack seg :
  Forall segment_ok stack → Js.has_char Js.slash seg = false →
  Forall segment_ok (Path.norm_step b stack seg).
Proof.
  intros Hs Hseg. unfold Path.norm_step.
  destruct (decide (seg = "" ∨ seg = ".")) as [|Hn]; [done|].
  destruct (decide (seg = "..")) as [->|].
  - destruct stack as [|top rest].
    + destruct b; [|done]. by repeat constructor.
    + inversion Hs; subst. destruct (decide (top = "..")); [|done].
      destruct b; [|done]. constructor; [|done]. by split.
  - constructor; [|done]. split; [|done]. intros ->. apply Hn. by left.
Qed.

Lemma fold_norm_step_ok b segs : ∀ stack,
  Forall segment_ok stack →
  Forall (fun s => Js.has_char Js.slash s = false) segs →
  Forall segment_ok (fold_left (Path.norm_step b) segs stack).
Proof.
  induction segs as [|seg segs IH]; intros stack Hs Hsegs; [done|].
  inversion Hsegs; subst. simpl. apply IH; [|done]. by apply norm_step_ok.
Qed.

Lemma segments_ok p : Forall segment_ok (Path.segments p).
Proof.
  unfold Path.segments, Path.norm_segments. apply Forall_rev.
  apply fold_norm_step_ok; [done|apply split_elems].
Qed.

Lemma fold_norm_step_plain b ds : ∀ stack,
  Forall plain_name ds →
  fold_left (Path.norm_step b) ds stack = rev ds ++ stack.
Proof.
  induction ds as [|d ds IH]; intros stack H; [done|].
  inversion H as [|? ? (H1 & H2 & H3 & H4) Hds]; subst. simpl.
  rewrite IH by done. rewrite <- app_assoc. f_equal.
  unfold Path.norm_step.
  destruct (decide (d = "" ∨ d = ".")) as [[?|?]|_]; [done|done|].
  by destruct (decide (d = "..")).
Qed.

(** The names of a path written without empty, "." or ".." parts are its
    parts. *)
Lemma segments_of_segments ds :
  Forall plain_name ds → Path.segments (Path.of_segments ds) = ds.
Proof.
  intros H. destruct ds as [|d ds]; [done|].
  unfold Path.segments, Path.norm_segments.
  rewrite split_of_segments; [|done|].
  - change (fold_left (Path.norm_step false) ("" :: d :: ds) [])
      with (fold_left (Path.norm_step false) (d :: ds) []).
    rewrite fold_norm_step_plain by done. by rewrite app_nil_r, rev_involutive.
  - eapply Forall_impl; [exact H|]. by intros s (H1 & _ & _ & H4).
Qed.

Lemma isAbsolute_nonempty p : Path.isAbsolute p = true → p ≠ "".
Proof. by destruct p. Qed.

(** [path.resolve] of an absolute path is the path of its names. *)
Lemma resolve_absolute cwd p :
  Path.isAbsolute p = true →
  Path.resolve cwd p = Path.of_segments (Path.segments p).
Proof.
  intros Ha. unfold Path.resolve. rewrite Ha.
  destruct (decide (p = "")) as [->|_]; [done|].
  simpl. unfold Path.of_segments, Path.normalizeString, Path.segments.
  do 2 f_equal. change (p +:+ "/") with (p +:+ String Js.slash "").
  rewrite split_app_sep. unfold Path.norm_segments.
  rewrite fold_left_app. simpl. done.
Qed.

(** ** [path.dirname] on a normalised absolute path *)

Lemma get_lt s k : (k < String.length s)%nat → ∃ c, String.get k s = Some c.
Proof.
  revert k. induction s as [|a s IH]; intros k H; simpl in *; [lia|].
  destruct k as [|k]; [by exists a|]. apply IH. lia.
Qed.

Lemma get_has_char c s k :
  Js.has_char c s = false → String.get k s ≠ Some c.
Proof.
  revert k. induction s as [|a s IH]; intros k H; simpl in *; [done|].
  apply orb_false_iff in H as [Ha Hs]. apply bool_decide_eq_false in Ha.
  destruct k as [|k]; [congruence|by apply IH].
Qed.

Lemma dirname_loop_step p i m :
  (1 ≤ i)%nat →
  Path.dirname_loop p (S i) m
  = match Js.charCodeAt p i with
    | Some c =>
        if decide (c = Js.slash) then
          (if m then Path.dirname_loop p i m else Z.of_nat i)
        else Path.dirname_loop p i false
    | None => -1
    end.
Proof. intros H. destruct i; [lia|reflexivity]. Qed.

(** Scanning back over a last name without separator, the loop stops at the
    separator before it. *)
Lemma dirname_loop_tail pre last :
  Js.has_char Js.slash last = false → (1 ≤ String.length pre)%nat →
  ∀ k m, (k ≤ String.length last)%nat → m = false ∨ (1 ≤ k)%nat →
  Path.dirname_loop (pre +:+ String Js.slash last)
    (String.length pre + 1 + k) m
  = Z.of_nat (String.length pre).
Proof.
  intros Hlast Hpre. induction k as [|k IH]; intros m Hk Hm.
  - destruct Hm as [->|?]; [|lia].
    replace (String.length pre + 1 + 0)%nat with (S (String.length pre + 0))
      by lia.
    rewrite dirname_loop_step by lia. unfold Js.charCodeAt.
    rewrite get_app_r. simpl. destruct (decide (Js.slash = Js.slash)); [|done].
    f_equal. lia.
  - replace (String.length pre + 1 + S k)%nat
      with (S (String.length pre + S k)) by lia.
    rewrite dirname_loop_step by lia. unfold Js.charCodeAt.
    rewrite get_app_r. simpl.
    destruct (get_lt last k) as [c Hc]; [lia|]. rewrite Hc.
    destruct (decide (c = Js.slash)) as [->|_].
    { by apply get_has_char with (k := k) in Hlast. }
    replace (String.length pre + S k)%nat with (String.length pre + 1 + k)%nat
      by lia.
    apply IH; [lia|by left].
Qed.

(** Over a single name below the root the loop finds no separator. *)
Lemma dirname_loop_root x :
  Js.has_char Js.slash x = false →
  ∀ k m, (k ≤ String.length x)%nat →
  Path.dirname_loop (String Js.slash x) (S k) m = -1.
Proof.
  intros Hx. induction k as [|k IH]; intros m Hk; [done|].
  rewrite dirname_loop_step by lia. unfold Js.charCodeAt.
  change (String.get (S k) (String Js.slash x)) with (String.get k x).
  destruct (get_lt x k) as [c Hc]; [lia|]. rewrite Hc.
  destruct (decide (c = Js.slash)) as [->|_].
  { by apply get_has_char with (k := k) in Hx. }
  apply IH. lia.
Qed.

Lemma join_length_pos sep x ds :
  x ≠ "" → (1 ≤ String.length (Js.join sep (x :: ds)))%nat.
Proof.
  intros Hx. destruct x as [|a x]; [done|].
  destruct ds as [|y ds]; simpl; lia.
Qed.

(** [path.dirname] drops the last name of a normalised absolute path. *)
Lemma dirname_of_segments segs :
  Forall segment_ok segs →
  Path.dirname (Path.of_segments segs) = Path.of_segments (removelast segs).
Proof.
  intros Hok. destruct segs as [|x rest] using rev_ind; [done|].
  clear IHrest. rewrite removelast_last.
  apply Forall_app in Hok as [Hrest Hx].
  inversion Hx as [|? ? [Hx1 Hx2] _]; subst.
  destruct rest as [|y rest].
  - simpl. unfold Path.of_segments, Path.dirname. simpl Js.join.
    change ("/" +:+ x) with (String Js.slash x).
    destruct (decide (String Js.slash x = "")) as [|_]; [done|].
    cbn [String.length Path.isAbsolute].
    rewrite dirname_loop_root by (done || lia). done.
  - unfold Path.of_segments. rewrite join_snoc by done.
    set (pre := "/" +:+ Js.join "/" (y :: rest)).
    replace ("/" +:+ Js.join "/" (y :: rest) +:+ "/" +:+ x)
      with (pre +:+ String Js.slash x)
      by (unfold pre; by rewrite !app_assoc_str).
    inversion Hrest as [|? ? [Hy _] _]; subst.
    assert (2 ≤ String.length pre)%nat as Hlen.
    { unfold pre. rewrite length_app_str.
      pose proof (join_length_pos "/" y rest Hy). simpl String.length at 1.
      lia. }
    unfold Path.dirname.
    destruct (decide (pre +:+ String Js.slash x = "")) as [E|_].
    { destruct pre; [simpl in Hlen; lia|done]. }
    assert (Path.isAbsolute (pre +:+ String Js.slash x) = true) as -> by done.
    replace (String.length (pre +:+ String Js.slash x))
      with (String.length pre + 1 + String.length x)%nat
      by (rewrite length_app_str; simpl; lia).
    rewrite dirname_loop_tail; [|done|lia|lia|].
    2:{ right. destruct x; [done|simpl; lia]. }
    destruct (Z.of_nat (String.length pre) =? -1) eqn:E1; [lia|].
    destruct (Z.of_nat (String.length pre) =? 1) eqn:E2; [lia|].
    simpl andb. unfold Js.slice.
    replace (Z.to_nat 0) with 0%nat by lia.
    replace (Z.to_nat (Z.of_nat (String.length pre) - 0))
      with (String.length pre) by lia.
    apply substring_app_l.
Qed.

(** The directory [findCommonParentDir] takes for an absolute path. *)
Lemma dirname_resolve cwd p :
  Path.isAbsolute p = true →
  Path.dirname (Path.resolve cwd p)
  = Path.of_segments (Path.parent_segments p).
Proof.
  intros Ha. rewrite resolve_absolute by done.
  apply dirname_of_segments, segments_ok.
Qed.

(** ** The loop of [findCommonParentDir] *)

Lemma every_at_true sds i part :
  every_at sds i part = true ↔ ∀ sp, sp ∈ sds → sp !! i = part.
Proof.
  unfold every_at. rewrite forallb_forall. split.
  - intros H sp Hsp. apply list_elem_of_In in Hsp.
    by apply H, bool_decide_eq_true in Hsp.
  - intros H sp Hsp. apply bool_decide_eq_true, H. by apply list_elem_of_In.
Qed.

Lemma prefix_drop_cons {A} (x : A) c i sp :
  x :: c `prefix_of` drop i sp →
  sp !! i = Some x ∧ c `prefix_of` drop (S i) sp.
Proof.
  intros [k Hk]. split.
  - rewrite <- (Nat.add_0_r i), <- lookup_drop, Hk. done.
  - exists k. replace (S i) with (i + 1)%nat by lia.
    rewrite <- drop_drop, Hk. done.
Qed.

(** What the loop pushes is a prefix of every split directory. *)
Lemma commonParts_loop_prefix sds n : ∀ i sp,
  sp ∈ sds → commonParts_loop sds i n `prefix_of` drop i sp.
Proof.
  induction n as [|n IH]; intros i sp Hsp; simpl; [apply prefix_nil|].
  destruct (sds !! 0%nat ≫= (.!! i)) as [part|]; [|apply prefix_nil].
  destruct (every_at sds i (Some part)) eqn:E; [|apply prefix_nil].
  rewrite every_at_true in E.
  rewrite (drop_S sp part i) by by apply E.
  apply prefix_cons, IH, Hsp.
Qed.

(** Every common prefix no longer than the number of rounds is a prefix of
    what the loop pushes. *)
Lemma commonParts_loop_maximal sds c : ∀ i n,
  sds ≠ [] →
  (∀ sp, sp ∈ sds → c `prefix_of` drop i sp) →
  (length c ≤ n)%nat →
  c `prefix_of` commonParts_loop sds i n.
Proof.
  induction c as [|x c IH]; intros i n Hne Hc Hn; [apply prefix_nil|].
  destruct n as [|n]; [simpl in Hn; lia|]. cbn [commonParts_loop].
  assert (∀ sp, sp ∈ sds → sp !! i = Some x) as Hx.
  { intros sp Hsp. by apply (prefix_drop_cons x c i sp), Hc. }
  assert (sds !! 0%nat ≫= (.!! i) = Some x) as ->.
  { destruct sds as [|h t]; [done|]. simpl. apply Hx. by left. }
  rewrite (proj2 (every_at_true sds i (Some x)) Hx).
  apply prefix_cons, IH; [done| |simpl in Hn; lia].
  intros sp Hsp. by apply (prefix_drop_cons x c i sp), Hc.
Qed.

Lemma fold_min_le ls : ∀ l x,
  x = l ∨ x ∈ ls → (fold_left Nat.min ls l ≤ x)%nat.
Proof.
  induction ls as [|y ls IH]; intros l x H; simpl.
  - destruct H as [->|H]; [done|]. by apply elem_of_nil in H.
  - destruct H as [->|H].
    + etrans; [apply (IH _ (Nat.min l y)); by left|lia].
    + apply elem_of_cons in H as [->|H].
      * etrans; [apply (IH _ (Nat.min l y)); by left|lia].
      * apply IH. by right.
Qed.

Lemma fold_min_glb ls : ∀ l m,
  (m ≤ l)%nat → (∀ x, x ∈ ls → (m ≤ x)%nat) →
  (m ≤ fold_left Nat.min ls l)%nat.
Proof.
  induction ls as [|y ls IH]; intros l m Hl H; simpl; [done|].
  apply IH.
  - assert (m ≤ y)%nat by (apply H; by left). lia.
  - intros x Hx. apply H. by right.
Qed.

Lemma minLen_glb lens m :
  lens ≠ [] → (∀ x, x ∈ lens → (m ≤ x)%nat) → (m ≤ minLen lens)%nat.
Proof.
  destruct lens as [|l ls]; [done|]. intros _ H. simpl.
  apply fold_min_glb; [apply H; by left|]. intros x Hx. apply H. by right.
Qed.

(** [commonParts] is the longest common prefix of the split directories. *)
Lemma commonParts_glb sds c :
  sds ≠ [] →
  (∀ sp, sp ∈ sds → c `prefix_of` sp) →
  c `prefix_of` commonParts_loop sds 0 (minLen (map length sds)).
Proof.
  intros Hne Hc. apply commonParts_loop_maximal; [done|done|].
  apply minLen_glb; [by destruct sds|].
  intros x Hx. apply list_elem_of_fmap in Hx as [sp [-> Hsp]].
  by apply prefix_length, Hc.
Qed.

Lemma commonParts_single l : ∀ n i,
  (i + n = length l)%nat → commonParts_loop [l] i n = drop i l.
Proof.
  induction n as [|n IH]; intros i Hi.
  - simpl. rewrite drop_ge; [done|lia].
  - destruct (lookup_lt_is_Some_2 l i) as [part Hpart]; [lia|].
    simpl. rewrite Hpart. rewrite bool_decide_eq_true_2 by done. simpl.
    rewrite IH by lia. symmetry. by apply drop_S.
Qed.

(** ** [findCommonParentDir] *)

(** The split directory of an absolute path: the empty name before the
    root's separator, then the names of the directory (for the root, which
    has none, the empty name after the separator). *)
Lemma split_dirname_resolve cwd p :
  Path.isAbsolute p = true →
  Js.split Js.slash (Path.dirname (Path.resolve cwd p))
  = "" :: match Path.parent_segments p with
          | [] => [""]
          | ds => ds
          end.
Proof.
  intros Ha. rewrite dirname_resolve by done.
  assert (Forall segment_ok (Path.parent_segments p)) as Hok.
  { unfold Path.parent_segments. pose proof (segments_ok p) as H.
    destruct (Path.segments p) as [|x l] using rev_ind; [done|].
    rewrite removelast_last. by apply Forall_app in H as [H _]. }
  destruct (Path.parent_segments p) as [|d ds] eqn:E; [done|].
  by apply split_of_segments.
Qed.

(** For a single path the result is [path.dirname] of the resolved path. *)
Lemma findCommonParentDir_single cwd p :
  findCommonParentDir cwd [p]
  = Return (JStr (Path.dirname (Path.resolve cwd p))).
Proof.
  unfold findCommonParentDir. simpl map.
  set (d := Path.dirname (Path.resolve cwd p)).
  cbn [minLen fold_left]. rewrite commonParts_single by done.
  rewrite drop_0. pose proof (split_nonempty Js.slash d) as Hne.
  pose proof (join_split Js.slash d) as Hj.
  destruct (Js.split Js.slash d); [done|]. by rewrite <- Hj.
Qed.

(** [findCommonParentDir] throws on the empty list and on nothing else. *)
Lemma findCommonParentDir_threw cwd paths :
  threw (findCommonParentDir cwd paths) = true ↔ paths = [].
Proof.
  destruct paths as [|p ps]; [done|]. unfold findCommonParentDir.
  destruct (commonParts_loop _ _ _); done.
Qed.

Lemma parent_segments_ok p : Forall segment_ok (Path.parent_segments p).
Proof.
  unfold Path.parent_segments. pose proof (segments_ok p) as H.
  destruct (Path.segments p) as [|x l] using rev_ind; [done|].
  rewrite removelast_last. by apply Forall_app in H as [H _].
Qed.

Lemma splitDirs_absolute cwd paths :
  Forall (fun p => Path.isAbsolute p = true) paths →
  map (Js.split Js.slash)
    (map (fun p => Path.dirname (Path.resolve cwd p)) paths)
  = map (fun p => "" :: split_tail p) paths.
Proof.
  intros H. rewrite map_map. apply map_ext_Forall.
  eapply Forall_impl; [exact H|]. intros p Hp. simpl.
  by apply split_dirname_resolve.
Qed.

(** The loop's result on absolute paths, when [c] is a common prefix of the
    split tails and no common prefix is longer. *)
Lemma commonParts_absolute paths c :
  paths ≠ [] →
  (∀ p, p ∈ paths → c `prefix_of` split_tail p) →
  (∀ c', (∀ p, p ∈ paths → c' `prefix_of` split_tail p) →
         (length c' ≤ length c)%nat) →
  let sds := map (fun p => "" :: split_tail p) paths in
  commonParts_loop sds 0 (minLen (map length sds)) = "" :: c.
Proof.
  intros Hne Hc Hmax sds.
  assert (sds ≠ []) as Hsds by (unfold sds; by destruct paths).
  assert ("" :: c `prefix_of` commonParts_loop sds 0 (minLen (map length sds)))
    as [k Hk].
  { apply commonParts_glb; [done|]. intros sp Hsp.
    apply list_elem_of_fmap in Hsp as [p [-> Hp]]. by apply prefix_cons, Hc. }
  assert (length (c ++ k) ≤ length c)%nat as Hlen.
  { apply Hmax. intros p Hp.
    assert ("" :: split_tail p ∈ sds) as Hin.
    { unfold sds. apply list_elem_of_fmap. by exists p. }
    pose proof (commonParts_loop_prefix sds (minLen (map length sds)) 0 _ Hin)
      as Hpre.
    rewrite drop_0, Hk in Hpre. simpl in Hpre.
    by apply prefix_cons_inv_2 in Hpre. }
  rewrite length_app in Hlen. destruct k; [|simpl in Hlen; lia].
  by rewrite app_nil_r in Hk.
Qed.

Lemma split_tail_head_not_empty p x c :
  x :: c `prefix_of` split_tail p → x ≠ "" →
  x :: c `prefix_of` Path.parent_segments p.
Proof.
  unfold split_tail. intros H Hx.
  destruct (Path.parent_segments p) as [|d ds]; [|done].
  apply prefix_cons_inv_1 in H. congruence.
Qed.

(** C4 (amended): for a non-empty list of absolute paths whose directories
    all lie in or below the directory [D] with the names [ds], where no
    deeper directory does, and where [D] is not the root unless every path
    lies directly in the root, [findCommonParentDir] returns exactly the path
    of [D]; for a single absolute path it returns the path of the directory
    that holds it. *)
Theorem findCommonParentDir_deepest cwd :
  (∀ paths ds,
     paths ≠ [] →
     Forall (fun p => Path.isAbsolute p = true) paths →
     common_dir paths ds →
     (∀ ds', common_dir paths ds' → (length ds' ≤ length ds)%nat) →
     (ds ≠ [] ∨ ∀ p, p ∈ paths → Path.parent_segments p = []) →
     findCommonParentDir cwd paths = Return (JStr (Path.of_segments ds)))
  ∧ (∀ p,
       Path.isAbsolute p = true →
       findCommonParentDir cwd [p]
       = Return (JStr (Path.of_segments (Path.parent_segments p)))).
Proof.
  split.
  - intros paths ds Hne Habs Hcommon Hmax Hroot.
    unfold findCommonParentDir. destruct paths as [|p0 ps] eqn:E; [done|].
    rewrite <- E in *. rewrite splitDirs_absolute by done.
    set (c := match ds with [] => [""] | _ => ds end).
    rewrite (commonParts_absolute paths c); [| done | |].
    + unfold Path.of_segments, c. by destruct ds as [|d [|d' ds]].
    + intros p Hp. unfold c, split_tail. specialize (Hcommon p Hp).
      destruct ds as [|d ds].
      * destruct Hroot as [|Hroot]; [done|]. by rewrite (Hroot p Hp).
      * destruct (Path.parent_segments p); [|done].
        by apply prefix_nil_inv in Hcommon.
    + intros c' Hc'. unfold c. destruct c' as [|x c']; [simpl; lia|].
      destruct (decide (x = "")) as [->|Hx].
      * assert (∀ p, p ∈ paths → Path.parent_segments p = []) as Hall.
        { intros p Hp. specialize (Hc' p Hp). unfold split_tail in Hc'.
          pose proof (parent_segments_ok p) as Hok.
          destruct (Path.parent_segments p) as [|d ds0]; [done|].
          apply prefix_cons_inv_1 in Hc'. inversion Hok as [|? ? [Hd _] _].
          congruence. }
        assert (p0 ∈ paths) as Hp0 by (rewrite E; by left).
        specialize (Hc' p0 Hp0). unfold split_tail in Hc'.
        rewrite (Hall p0 Hp0) in Hc'. apply prefix_length in Hc'.
        destruct ds; simpl in *; lia.
      * assert (common_dir paths (x :: c')) as Hcd.
        { intros p Hp. apply split_tail_head_not_empty; [by apply Hc'|done]. }
        specialize (Hmax _ Hcd). destruct ds; simpl in *; lia.
  - intros p Ha. rewrite findCommonParentDir_single. by rewrite dirname_resolve.
Qed.

(** Three tracks below [/music/Artist/Album], written with "." and ".."
    parts. *)
Lemma findCommonParentDir_deepest_witness :
  findCommonParentDir "/srv"
    ["/music/Artist/Album/CD1/01.flac"; "/music/Artist/./Album/CD2/01.flac";
     "/music/Artist/Album/cover/../02.flac"]
  = Return (JStr "/music/Artist/Album").
Proof.
  apply (proj1 (findCommonParentDir_deepest "/srv") _
           ["music"; "Artist"; "Album"]).
  - done.
  - repeat constructor.
  - intros p Hp. repeat (apply elem_of_cons in Hp as [->|Hp]);
      [by eexists ..|by apply elem_of_nil in Hp].
  - intros ds' Hds'.
    assert (ds' `prefix_of` ["music"; "Artist"; "Album"; "CD1"]) as H1
      by (apply (Hds' "/music/Artist/Album/CD1/01.flac"); by left).
    assert (ds' `prefix_of` ["music"; "Artist"; "Album"]) as H2
      by (apply (Hds' "/music/Artist/Album/cover/../02.flac");
          by do 2 right; left).
    by apply prefix_length in H2.
  - by left.
Defined.

(** C4, as the specification states it, fails when the deepest common
    directory is the root: the directories [/a] and [/b] of the two paths
    have the root as their deepest common directory, whose path is "/", and
    the result is the empty string. *)
Lemma findCommonParentDir_root_example :
  Path.parent_segments "/a/x.flac" = ["a"]
  ∧ Path.parent_segments "/b/y.flac" = ["b"]
  ∧ Path.of_segments [] = "/"
  ∧ findCommonParentDir "/srv" ["/a/x.flac"; "/b/y.flac"] = Return (JStr "").
Proof. vm_compute. done. Qed.

(** When the directories of the paths have no name in common and are not all
    the root, the result is the empty string. *)
Lemma findCommonParentDir_none cwd paths :
  paths ≠ [] →
  Forall (fun p => Path.isAbsolute p = true) paths →
  (∀ ds, common_dir paths ds → ds = []) →
  (∃ p, p ∈ paths ∧ Path.parent_segments p ≠ []) →
  findCommonParentDir cwd paths = Return (JStr "").
Proof.
  intros Hne Habs Hnone [p1 [Hp1 Hpar]].
  unfold findCommonParentDir. destruct paths as [|p0 ps] eqn:E; [done|].
  rewrite <- E in *. rewrite splitDirs_absolute by done.
  rewrite (commonParts_absolute paths []); [done|done| |].
  - intros p Hp. apply prefix_nil.
  - intros c' Hc'. destruct c' as [|x c']; [done|]. exfalso.
    assert (x ≠ "") as Hx.
    { specialize (Hc' p1 Hp1). unfold split_tail in Hc'.
      pose proof (parent_segments_ok p1) as Hok.
      destruct (Path.parent_segments p1) as [|d ds0]; [done|].
      apply prefix_cons_inv_1 in Hc' as ->. by inversion Hok as [|? ? [Hd _] _]. }
    assert (common_dir paths (x :: c')) as Hcd.
    { intros p Hp. apply split_tail_head_not_empty; [by apply Hc'|done]. }
    by apply Hnone in Hcd.
Qed.

(** ** The webhook handler *)

Example webhook_success :
  webhook (example_config no_faults) (example_body "abc") (start example_world)
  = (State
       (World
          {["/music/Artist/Album" :=
              {["01.flac" := File 8; "cover.jpg" := File 1;
                "disc1-log.log" := File 2]}]}
          {["/downloads/Album" := scenario_tree 1 2 3]})
       pipeline [],
     Return 200).
Proof. vm_compute. done. Qed.








(** C3, as the specification states it, fails: a notification with an empty
    track list and a download identifier is answered with 200 (the empty
    list throws inside the [try] block), and so is a [Test] notification
    that has neither field. *)
Lemma empty_track_list_acknowledged_example :
  webhook (example_config no_faults) (Payload (Some "Download") (Some []) (Some "abc"))
    (start example_world)
  = (State example_world [ResolvingAlbumDir]
       ["Error processing webhook: No paths provided to findCommonParentDir"],
     Return 200)
  ∧ webhook (example_config no_faults) (Payload (Some "Test") None None)
      (start example_world)
    = (start example_world, Return 200).
Proof. vm_compute. done. Qed.

(** C3 (amended): the handler always answers, with the status [status_of]
    reads off the body: 200 for a [Test] notification; otherwise 400 when
    the track list is absent or the download identifier is absent or empty
    (the directories are then left as they are); otherwise 200, whether the
    processing succeeds or throws, an empty track list included. *)
Theorem webhook_acknowledgment cfg body s :
  (webhook cfg body s).2 = Return (status_of body)
  ∧ (status_of body = 400 → fs (webhook cfg body s).1 = fs s)
  ∧ (∀ tracks s1 msg,
       eventType body ≠ Some "Test" →
       trackFiles body = Some tracks →
       noDownloadId body = false →
       processImport cfg tracks (default "" (downloadId body)) s
       = (s1, Throw msg) →
       webhook cfg body s = (logged s1 msg, Return 200)).
Proof.
  unfold webhook, status_of. split; [|split].
  - case_bool_decide; [done|]. destruct (trackFiles body); [|done].
    destruct (noDownloadId body); [done|].
    unfold try_catch, bind, ret, console_error.
    by destruct (processImport _ _ _ _) as [s1 [[]|msg]].
  - case_bool_decide; [done|]. destruct (trackFiles body); [|done].
    by destruct (noDownloadId body).
  - intros tracks s1 msg Ht -> -> Hp.
    rewrite bool_decide_eq_false_2 by done.
    unfold try_catch, bind, ret, console_error. by rewrite Hp.
Qed.

(** A run that fails in processing is answered with 200. *)
Lemma webhook_acknowledgment_witness :
  webhook (example_config no_faults) (example_body "unknown")
    (start example_world)
  = (logged
       (State
          (World {["/music/Artist/Album" := {["01.flac" := File 8]}]}
             {["/downloads/Album" := scenario_tree 1 2 3]})
          [ResolvingAlbumDir; RemovingStale; LoggingIn; ResolvingSourceDir] [])
       "Torrent unknown not found in qBittorrent",
     Return 200).
Proof.
  apply (proj2 (proj2 (webhook_acknowledgment (example_config no_faults)
                         (example_body "unknown") (start example_world)))
           [Track "/music/Artist/Album/01.flac"]);
    vm_compute; done.
Defined.

(** C5, as the specification states it, fails for tracks that lie directly
    in the root directory: their paths share no name, the result is "/" (a
    value that is not falsy) and the run goes on to remove the extra
    [cover.jpg] from the root directory. *)
Lemma root_tracks_not_none_example :
  Path.parent_segments "/01.flac" = []
  ∧ Path.parent_segments "/02.flac" = []
  ∧ findCommonParentDir "/srv" ["/01.flac"; "/02.flac"] = Return (JStr "/")
  ∧ falsy (JStr "/") = false
  ∧ webhook (example_config no_faults) root_body (start root_world)
    = (State
         (World {["/" := {["01.flac" := File 8; "02.flac" := File 9]}]} ∅)
         [ResolvingAlbumDir; RemovingStale; LoggingIn; ResolvingSourceDir]
         ["Error processing webhook: Torrent unknown not found in qBittorrent"],
       Return 200).
Proof. vm_compute. done. Qed.

(** C5 (amended): [findCommonParentDir] throws exactly when its list is
    empty.  For absolute track paths whose directories have no name in
    common and are not all the root, it returns the empty string, a falsy
    value that the callers treat as [null], and does not throw.  On a falsy
    result the handler ends the run in the [catch] block right after the
    first step: the directories are as they were, no removal and no link
    was attempted, and the answer is 200. *)
Theorem no_common_ancestor_ends_run cfg :
  (∀ paths, threw (findCommonParentDir (cwd cfg) paths) = true ↔ paths = [])
  ∧ (∀ paths,
       paths ≠ [] →
       Forall (fun p => Path.isAbsolute p = true) paths →
       (∀ ds, common_dir paths ds → ds = []) →
       (∃ p, p ∈ paths ∧ Path.parent_segments p ≠ []) →
       findCommonParentDir (cwd cfg) paths = Return (JStr "")
       ∧ falsy (JStr "") = true)
  ∧ (∀ body s tracks v,
       eventType body ≠ Some "Test" →
       trackFiles body = Some tracks →
       noDownloadId body = false →
       findCommonParentDir (cwd cfg) (map path tracks) = Return v →
       falsy v = true →
       webhook cfg body s
       = (logged (State (fs s) (entered s ++ [ResolvingAlbumDir]) (errors s))
            "Could not identify common root for lidarr track files",
          Return 200)).
Proof.
  split; [|split].
  - intros paths. apply findCommonParentDir_threw.
  - intros paths Hne Habs Hnone Hex. split; [|done].
    by apply findCommonParentDir_none.
  - intros body s tracks v Ht Htracks Hid Hv Hf.
    unfold webhook. rewrite bool_decide_eq_false_2 by done.
    rewrite Htracks, Hid.
    unfold try_catch, processImport, bind, enter, lift, ret, throw,
      console_error, logged.
    simpl. rewrite Hv. by destruct v as [|[|a r]].
Qed.

(** Tracks in [/music/a], in the root and in [/other/b]. *)
Lemma no_common_ancestor_ends_run_witness :
  findCommonParentDir "/srv" ["/music/a/01.flac"; "/02.flac"; "/other/b/03.flac"]
  = Return (JStr "")
  ∧ falsy (JStr "") = true.
Proof.
  apply (proj1 (proj2 (no_common_ancestor_ends_run (example_config no_faults)))
           ["/music/a/01.flac"; "/02.flac"; "/other/b/03.flac"]).
  - done.
  - repeat constructor.
  - intros ds Hds.
    assert (ds `prefix_of` Path.parent_segments "/02.flac") as H
      by (apply Hds; by right; left).
    by apply prefix_nil_inv in H.
  - exists "/music/a/01.flac". split; [by left|done].
Defined.

(** ** The extension of a name and of the name with a prefix *)

Lemma get_app_shift b s i :
  String.get (String.length b + i) (b +:+ s) = String.get i s.
Proof. apply get_app_r. Qed.

Lemma substring_app_shift b s a m :
  String.substring (String.length b + a) m (b +:+ s) = String.substring a m s.
Proof. induction b as [|c b IH]; [done|]. rewrite app_String. simpl. apply IH. Qed.

Lemma length_substring_le s : ∀ a m,
  (String.length (String.substring a m s) ≤ m)%nat.
Proof.
  induction s as [|c s IH]; intros a m.
  - destruct a, m; simpl; lia.
  - destruct a as [|a]; simpl.
    + destruct m as [|m]; simpl; [lia|]. specialize (IH 0%nat m). lia.
    + apply IH.
Qed.

(** Once the dot and the end of the extension are recorded, the rest of the
    loop keeps them. *)
Lemma extname_loop_keeps p m : ∀ st,
  Path.startDot st ≠ -1 → Path.endIdx st ≠ -1 →
  Path.startDot (Path.extname_loop p m st) = Path.startDot st
  ∧ Path.endIdx (Path.extname_loop p m st) = Path.endIdx st
  ∧ (Path.preDotState st ≠ 0 →
     Path.preDotState (Path.extname_loop p m st) ≠ 0).
Proof.
  induction m as [|i IH]; intros st Hs He; cbn [Path.extname_loop]; [done|].
  destruct (Js.charCodeAt p i) as [c|]; [|done].
  destruct (decide (c = Js.slash)) as [_|_].
  { destruct (negb (Path.matchedSlash st)); [done|by apply IH]. }
  assert (Path.startDot (Path.ext_char c (Z.of_nat i) st) = Path.startDot st
          ∧ Path.endIdx (Path.ext_char c (Z.of_nat i) st) = Path.endIdx st
          ∧ Path.preDotState (Path.ext_char c (Z.of_nat i) st) ≠ 0)
    as (H1 & H2 & H3).
  { unfold Path.ext_char.
    destruct (Path.endIdx st =? -1) eqn:E; [lia|].
    destruct (Path.startDot st =? -1) eqn:E'; [lia|].
    destruct (decide (c = Js.dot)); simpl.
    - destruct (Path.preDotState st =? 1) eqn:E1; simpl; [|done]. lia.
    - done. }
  destruct (IH (Path.ext_char c (Z.of_nat i) st)) as (H4 & H5 & H6);
    [congruence|congruence|].
  rewrite H4, H5, H1, H2. auto.
Qed.

Lemma ext_char_shifted k c i st st' :
  0 ≤ i → 0 ≤ k → ext_shifted k st st' →
  ext_shifted k (Path.ext_char c i st) (Path.ext_char c (k + i) st').
Proof.
  intros Hi Hk. destruct st as [sd sp e ms pd], st' as [sd' sp' e' ms' pd'].
  unfold ext_shifted. simpl. intros (H1 & H2 & H3 & -> & -> & -> & ->).
  unfold Path.ext_char. simpl.
  repeat (case_match; simpl in *); repeat split; simpl; try lia; try done.
Qed.

(** The loop on a name and on the name with [b] before it, from the same
    character down: when the run on the name records a dot, the run on the
    longer string records the same dot and the same end, moved by the length
    of [b]. *)
Lemma extname_loop_prefix b s n : ∀ st st',
  (n ≤ String.length s)%nat →
  ext_shifted (Z.of_nat (String.length b)) st st' →
  Path.startDot (Path.extname_loop s n st) ≠ -1 →
  Path.startDot (Path.extname_loop (b +:+ s) (String.length b + n) st')
  = Path.startDot (Path.extname_loop s n st) + Z.of_nat (String.length b)
  ∧ Path.endIdx (Path.extname_loop (b +:+ s) (String.length b + n) st')
    = Path.endIdx (Path.extname_loop s n st) + Z.of_nat (String.length b)
  ∧ Path.endIdx (Path.extname_loop s n st) ≠ -1
  ∧ -1 ≤ Path.startDot (Path.extname_loop s n st)
  ∧ -1 ≤ Path.endIdx (Path.extname_loop s n st)
  ∧ (Path.preDotState (Path.extname_loop s n st) ≠ 0 →
     Path.preDotState
       (Path.extname_loop (b +:+ s) (String.length b + n) st') ≠ 0).
Proof.
  set (k := Z.of_nat (String.length b)).
  induction n as [|i IH]; intros st st' Hn Hsh Hdot.
  - cbn [Path.extname_loop] in *. rewrite Nat.add_0_r.
    destruct Hsh as (H1 & H2 & H3 & H4 & H5 & H6 & H7).
    destruct (Path.startDot st =? -1) eqn:Es; [lia|].
    destruct (Path.endIdx st =? -1) eqn:Ee; [specialize (H3 Hdot); lia|].
    destruct (extname_loop_keeps (b +:+ s) (String.length b) st')
      as (K1 & K2 & K3); [lia|lia|].
    rewrite K1, K2, H4, H5. repeat split; first [lia | by rewrite H7 in K3].
  - replace (String.length b + S i)%nat with (S (String.length b + i)) by lia.
    cbn [Path.extname_loop] in *. unfold Js.charCodeAt in *.
    rewrite get_app_shift.
    destruct (String.get i s) as [c|] eqn:Hc.
    2:{ destruct (get_lt s i) as [c Hc']; [lia|congruence]. }
    pose proof Hsh as (H1 & H2 & H3 & H4 & H5 & H6 & H7).
    destruct (decide (c = Js.slash)) as [_|_].
    + rewrite H6. destruct (negb (Path.matchedSlash st)).
      * simpl in *. destruct (Path.startDot st =? -1) eqn:Es; [lia|].
        destruct (Path.endIdx st =? -1) eqn:Ee; [specialize (H3 Hdot); lia|].
        rewrite H4, H5, H7. repeat split; first [lia | done].
      * apply IH; [lia|done|done].
    + replace (Z.of_nat (String.length b + i)) with (k + Z.of_nat i)
        by (unfold k; lia).
      apply IH; [lia| |done].
      apply ext_char_shifted; [lia|unfold k; lia|done].
Qed.

Lemma ext_shifted_init k : ext_shifted k Path.ext_init Path.ext_init.
Proof. unfold ext_shifted. simpl. repeat split; try lia; done. Qed.

(** An extension of at least one character after its dot is not changed by
    text put before the name. *)
Lemma extname_prefix b s :
  (2 ≤ String.length (Path.extname s))%nat →
  Path.extname (b +:+ s) = Path.extname s.
Proof.
  unfold Path.extname. rewrite length_app_str.
  set (fs := Path.extname_loop s (String.length s) Path.ext_init).
  intros Hlen.
  destruct ((Path.startDot fs =? -1) || (Path.endIdx fs =? -1)
            || (Path.preDotState fs =? 0)
            || ((Path.preDotState fs =? 1)
                && (Path.startDot fs =? Path.endIdx fs - 1)
                && (Path.startDot fs =? Path.startPart fs + 1))) eqn:E;
    [simpl in Hlen; lia|].
  apply orb_false_iff in E as [E _]. apply orb_false_iff in E as [E Ep].
  apply orb_false_iff in E as [Es Ee].
  destruct (extname_loop_prefix b s (String.length s) Path.ext_init
              Path.ext_init) as (K1 & K2 & K3 & K5 & K6 & K4);
    [lia|apply ext_shifted_init|fold fs; lia|].
  fold fs in K1, K2, K3, K4, K5, K6.
  set (fp := Path.extname_loop (b +:+ s)
               (String.length b + String.length s) Path.ext_init) in *.
  unfold Js.slice in Hlen.
  pose proof (length_substring_le s (Z.to_nat (Path.startDot fs))
                (Z.to_nat (Path.endIdx fs - Path.startDot fs))) as Hle.
  assert (Path.preDotState fp ≠ 0) as Hp by (apply K4; lia).
  assert ((Path.startDot fp =? -1) = false) as -> by lia.
  assert ((Path.endIdx fp =? -1) = false) as -> by lia.
  assert ((Path.preDotState fp =? 0) = false) as -> by lia.
  assert ((Path.startDot fp =? Path.endIdx fp - 1) = false) as -> by lia.
  rewrite andb_false_r. simpl. unfold Js.slice. rewrite K1, K2.
  replace (Z.to_nat (Path.startDot fs + Z.of_nat (String.length b)))
    with (String.length b + Z.to_nat (Path.startDot fs))%nat by lia.
  replace (Path.endIdx fs + Z.of_nat (String.length b)
           - (Path.startDot fs + Z.of_nat (String.length b)))
    with (Path.endIdx fs - Path.startDot fs) by lia.
  apply substring_app_shift.
Qed.

Lemma length_toLowerCase s :
  String.length (Js.toLowerCase s) = String.length s.
Proof. induction s as [|a s IH]; [done|]. simpl. by rewrite IH. Qed.

Lemma allowlist_length x : x ∈ EXTRA_ALLOWLIST → (2 ≤ String.length x)%nat.
Proof.
  intros H. unfold EXTRA_ALLOWLIST in H.
  repeat (apply elem_of_cons in H as [->|H]; [simpl; lia|]).
  by apply elem_of_nil in H.
Qed.

(** An extra stays an extra when text is put before its name. *)
Lemma isExtraFile_prefix b name :
  isExtraFile name = true → isExtraFile (b +:+ name) = true.
Proof.
  unfold isExtraFile. intros H. apply bool_decide_eq_true in H.
  rewrite extname_prefix; [by apply bool_decide_eq_true|].
  rewrite <- length_toLowerCase. by apply allowlist_length.
Qed.

Lemma isExtraFile_flatName base name :
  isExtraFile name = true → isExtraFile (flatName base name) = true.
Proof.
  intros H. unfold flatName. destruct (decide (base = "")); [done|].
  rewrite <- app_assoc_str. by apply isExtraFile_prefix.
Qed.

(** ** The extension of a stem followed by an extension *)

Lemma lower_char_fixed c x :
  (x = Js.dot ∨ x = Js.slash) → Js.lower_char c = x → c = x.
Proof.
  intros [-> | ->]; destruct c as [[] [] [] [] [] [] [] []]; vm_compute;
    intros; congruence.
Qed.

Lemma has_char_toLowerCase x s :
  (x = Js.dot ∨ x = Js.slash) →
  Js.has_char x (Js.toLowerCase s) = false → Js.has_char x s = false.
Proof.
  intros Hx. induction s as [|a s IH]; [done|]. simpl. intros H.
  apply orb_false_iff in H as [Ha Hs]. apply bool_decide_eq_false in Ha.
  rewrite IH by done. rewrite bool_decide_eq_false_2; [done|].
  intros ->. apply Ha. by destruct Hx as [-> | ->].
Qed.

(** The loop over one character [c], a dot and a tail [e] without dot or
    separator, from the character of index [1 + m] of the tail down: the dot
    is found at index 1 and the extension ends where the string does. *)
Lemma extname_loop_dot_tail c e :
  c ≠ Js.slash →
  Js.has_char Js.dot e = false → Js.has_char Js.slash e = false →
  ∀ m st,
    (m ≤ String.length e)%nat →
    Path.startDot st = -1 → Path.preDotState st = 0 →
    (Path.endIdx st = -1 → m = String.length e) →
    (Path.endIdx st ≠ -1 → Path.endIdx st = Z.of_nat (2 + String.length e)) →
    let fin := Path.extname_loop (String c (String Js.dot e)) (2 + m) st in
    Path.startDot fin = 1
    ∧ Path.endIdx fin = Z.of_nat (2 + String.length e)
    ∧ Path.preDotState fin ≠ 0.
Proof.
  intros Hc Hdot Hslash. induction m as [|m IH]; intros st Hm Hs Hp He1 He2.
  - cbn [Nat.add Path.extname_loop Js.charCodeAt String.get].
    destruct (decide (Js.dot = Js.slash)) as [|_]; [done|].
    destruct (decide (c = Js.slash)) as [|_]; [done|].
    destruct st as [sd sp en ms pd]. simpl in *. subst sd pd.
    unfold Path.ext_char. simpl.
    destruct (decide (Js.dot = Js.dot)) as [_|]; [|done].
    destruct (en =? -1) eqn:E; simpl; rewrite ?E; simpl.
    + assert (en = -1) as Hen by lia. specialize (He1 Hen).
      destruct (decide (c = Js.dot)); simpl; repeat split; lia.
    + assert (en ≠ -1) as Hen by lia. specialize (He2 Hen).
      destruct (decide (c = Js.dot)); simpl; repeat split; lia.
  - change (2 + S m)%nat with (S (2 + m)). cbn [Path.extname_loop].
    change (Js.charCodeAt (String c (String Js.dot e)) (2 + m))
      with (String.get m e).
    destruct (get_lt e m) as [x Hx]; [lia|]. rewrite Hx.
    destruct (decide (x = Js.slash)) as [->|_].
    { by apply get_has_char with (k := m) in Hslash. }
    assert (x ≠ Js.dot) as Hxd.
    { intros ->. by apply get_has_char with (k := m) in Hdot. }
    destruct (ext_char_other x (Z.of_nat (2 + m)) st Hxd Hs) as [H1 H2].
    apply IH; [lia|done|by rewrite H2| |].
    + intros H. exfalso. revert H. unfold Path.ext_char.
      destruct (Path.endIdx st =? -1) eqn:E; simpl;
        destruct (decide (x = Js.dot)); try done; simpl; rewrite ?Hs; simpl;
        lia.
    + intros _. unfold Path.ext_char.
      destruct (Path.endIdx st =? -1) eqn:E; simpl;
        destruct (decide (x = Js.dot)); try done; simpl; rewrite ?Hs; simpl.
      * assert (Path.endIdx st = -1) as Hen by lia. specialize (He1 Hen). lia.
      * apply He2. lia.
Qed.

Lemma extname_char_dot_tail c e :
  c ≠ Js.slash → e ≠ "" →
  Js.has_char Js.dot e = false → Js.has_char Js.slash e = false →
  Path.extname (String c (String Js.dot e)) = String Js.dot e.
Proof.
  intros Hc He Hdot Hslash. unfold Path.extname.
  change (String.length (String c (String Js.dot e)))
    with (2 + String.length e)%nat.
  destruct (extname_loop_dot_tail c e Hc Hdot Hslash (String.length e)
              Path.ext_init) as (H1 & H2 & H3); try done.
  set (fin := Path.extname_loop _ _ _) in *.
  assert (1 ≤ String.length e)%nat as Hlen by (destruct e; [done|simpl; lia]).
  rewrite H1, H2.
  assert ((Path.preDotState fin =? 0) = false) as -> by lia.
  assert ((1 =? Z.of_nat (2 + String.length e) - 1) = false) as ->
    by (apply Z.eqb_neq; lia).
  assert ((Z.of_nat (2 + String.length e) =? -1) = false) as ->
    by (apply Z.eqb_neq; lia).
  rewrite andb_false_r. simpl orb. cbv iota. unfold Js.slice.
  replace (Z.to_nat 1) with 1%nat by lia.
  replace (Z.to_nat (Z.of_nat (2 + String.length e) - 1))
    with (String.length (String Js.dot e)) by (simpl; lia).
  change (String.substring 1 (String.length (String Js.dot e))
            (String c (String Js.dot e)))
    with (String.substring 0 (String.length (String Js.dot e))
            (String Js.dot e)).
  apply substring_all.
Qed.

(** A name that ends in an allowlisted extension, written in any letter
    case, after at least one character that is not the separator, is an
    extra. *)
Theorem isExtraFile_stem_ext stem c ext :
  c ≠ Js.slash →
  Js.toLowerCase ext ∈ EXTRA_ALLOWLIST →
  isExtraFile (stem +:+ String c ext) = true.
Proof.
  intros Hc Hext. apply isExtraFile_prefix. unfold isExtraFile.
  apply bool_decide_eq_true.
  assert (∃ e, ext = String Js.dot e ∧ e ≠ ""
               ∧ Js.has_char Js.dot e = false
               ∧ Js.has_char Js.slash e = false) as (e & -> & He & Hd & Hs).
  { destruct ext as [|d e].
    { exfalso. apply allowlist_length in Hext. simpl in Hext. lia. }
    assert (Js.lower_char d = Js.dot
            ∧ Js.toLowerCase e ≠ ""
            ∧ Js.has_char Js.dot (Js.toLowerCase e) = false
            ∧ Js.has_char Js.slash (Js.toLowerCase e) = false)
      as (H1 & H2 & H3 & H4).
    { simpl in Hext. unfold EXTRA_ALLOWLIST in Hext.
      repeat (apply elem_of_cons in Hext as [Heq|Hext];
              [injection Heq as -> ->; by vm_compute|]).
      by apply elem_of_nil in Hext. }
    exists e. split; [f_equal; eapply lower_char_fixed; eauto|].
    split; [by intros ->|].
    split; eapply has_char_toLowerCase; eauto. }
  by rewrite extname_char_dot_tail.
Qed.

(** A cover image written in capitals. *)
Lemma isExtraFile_stem_ext_witness : isExtraFile "Folder.JPEG" = true.
Proof.
  apply (isExtraFile_stem_ext "Folde" "r"%char ".JPEG").
  - done.
  - vm_compute. repeat constructor.
Defined.

(** ** What the walk touches *)

(** One link operation changes no entry but its destination, whatever
    fails. *)
Lemma linkOne_other fl (d : gmap string node) ino destFile n :
  n ≠ destFile → (linkOne fl d ino destFile).1 !! n = d !! n.
Proof.
  intros Hn. unfold linkOne, Fs.unlink, Fs.link.
  destruct (unlink_fails fl destFile), (link_fails fl ino); simpl; try done;
    destruct (d !! destFile) as [[i|es|]|] eqn:Hd; simpl;
    rewrite ?lookup_delete_eq, ?Hd; simpl;
    rewrite ?lookup_insert_ne, ?lookup_delete_ne by done; done.
Qed.

Lemma runPlan_other fl ops : ∀ (d : gmap string node) n,
  Forall (fun op => op.1 ≠ n) ops → (runPlan fl ops d).1 !! n = d !! n.
Proof.
  induction ops as [|[n0 i] rest IH]; intros d n H; [done|].
  inversion H as [|? ? Hn0 Hrest]; subst. cbn [runPlan].
  pose proof (linkOne_other fl d i n0 n) as Hstep.
  destruct (linkOne fl d i n0) as [d' [[]|msg]]; simpl in *.
  - rewrite IH by done. by apply Hstep.
  - by apply Hstep.
Qed.

(** Every destination name of the plan is the name of an extra. *)
Lemma planEntry_extras e : ∀ base name,
  Forall (fun op => isExtraFile op.1 = true) (planEntry base name e).
Proof.
  induction e as [ino| |es IH] using node_ind; intros base name.
  - simpl. destruct (isExtraFile name) eqn:E; [|done].
    constructor; [|done]. by apply isExtraFile_flatName.
  - done.
  - rewrite planEntry_dir. generalize (flatName base name) as b. intros b.
    induction IH as [|[n e] rest He _ IHrest]; [done|].
    cbn [plan]. apply Forall_app. split; [apply He|apply IHrest].
Qed.

Lemma plan_extras base es :
  Forall (fun op => isExtraFile op.1 = true) (plan base es).
Proof.
  induction es as [|[n e] rest IH]; [done|].
  cbn [plan]. apply Forall_app. split; [apply planEntry_extras|done].
Qed.

(** The walk leaves alone every entry of the album directory whose name is
    not the name of an extra: it is neither removed, nor replaced, nor
    created, whatever fails on the way. *)
Theorem linkExtrasRecursive_keeps_non_extras fl entries base
    (d : gmap string node) n :
  isExtraFile n = false →
  (linkExtrasRecursive fl entries base d).1 !! n = d !! n.
Proof.
  intros Hn. rewrite linkExtrasRecursive_plan. apply runPlan_other.
  eapply Forall_impl; [apply plan_extras|].
  intros op Hop Heq. simpl in *. congruence.
Qed.

(** The track [01.flac] survives a walk that links a file of the same
    stem. *)
Lemma linkExtrasRecursive_keeps_non_extras_witness :
  (linkExtrasRecursive no_faults [("01.flac", File 4); ("01.log", File 5)] ""
     {["01.flac" := File 8]}).1 !! "01.flac"
  = Some (File 8).
Proof.
  rewrite (linkExtrasRecursive_keeps_non_extras no_faults _ ""
             {["01.flac" := File 8]} "01.flac"); reflexivity.
Defined.

(** ** A walk without failure *)

Lemma linkOne_no_faults (d : gmap string node) ino n :
  notDir (d !! n) = true →
  linkOne no_faults d ino n = (<[n := File ino]> d, Return ()).
Proof.
  intros H. unfold linkOne, Fs.unlink, Fs.link. simpl.
  destruct (d !! n) as [[i|es|]|] eqn:Hd; simpl in *; try done;
    rewrite ?lookup_delete_eq, ?Hd; simpl; by rewrite ?insert_delete_eq.
Qed.

Lemma runPlan_no_faults ops : ∀ (d : gmap string node),
  Forall (fun op => notDir (d !! op.1) = true) ops →
  runPlan no_faults ops d = (linked ops d, Return ()).
Proof.
  induction ops as [|[n i] rest IH]; intros d H; [done|].
  inversion H as [|? ? Hn Hrest]; subst. cbn [runPlan].
  rewrite linkOne_no_faults by done. unfold linked. simpl. apply IH.
  eapply Forall_impl; [exact Hrest|]. intros [n' i'] Hop. simpl in *.
  destruct (decide (n' = n)) as [->|Hne].
  - by rewrite lookup_insert_eq.
  - by rewrite lookup_insert_ne.
Qed.

(** When nothing fails and no flattened destination name is the name of a
    subdirectory of the album directory, the walk returns normally and has
    put every extra of the tree under its flattened name, in the order of
    the walk; an entry that was there under such a name is replaced. *)
Theorem linkExtrasRecursive_succeeds entries base (d : gmap string node) :
  Forall (fun op => notDir (d !! op.1) = true) (plan base entries) →
  linkExtrasRecursive no_faults entries base d
  = (linked (plan base entries) d, Return ()).
Proof.
  intros H. rewrite linkExtrasRecursive_plan. by apply runPlan_no_faults.
Qed.

(** The scenario's tree into an album directory that holds a track and an
    older [cover.jpg]. *)
Lemma linkExtrasRecursive_succeeds_witness :
  linkExtrasRecursive no_faults (scenario_tree 1 2 3) ""
    {["01.flac" := File 8; "cover.jpg" := File 9]}
  = ({["01.flac" := File 8; "cover.jpg" := File 1; "disc1-log.log" := File 2]},
     Return ()).
Proof.
  rewrite (linkExtrasRecursive_succeeds (scenario_tree 1 2 3) ""
             {["01.flac" := File 8; "cover.jpg" := File 9]}).
  - vm_compute. done.
  - vm_compute. repeat constructor.
Defined.

Lemma linkOne_dir fl (d : gmap string node) ino n es :
  d !! n = Some (Dir es) → threw (linkOne fl d ino n).2 = true.
Proof.
  intros Hd. unfold linkOne, Fs.unlink, Fs.link. rewrite Hd.
  destruct (unlink_fails fl n), (link_fails fl ino); simpl; try done;
    by rewrite Hd.
Qed.

Lemma linkOne_keeps_dir fl (d : gmap string node) ino n0 n es :
  d !! n = Some (Dir es) → (linkOne fl d ino n0).1 !! n = Some (Dir es).
Proof.
  intros Hd. destruct (decide (n = n0)) as [->|Hne].
  - unfold linkOne, Fs.unlink, Fs.link. rewrite Hd.
    destruct (unlink_fails fl n0), (link_fails fl ino); simpl; try done;
      by rewrite Hd.
  - by rewrite linkOne_other.
Qed.

Lemma runPlan_blocked fl ops : ∀ (d : gmap string node) n ino es,
  (n, ino) ∈ ops → d !! n = Some (Dir es) →
  threw (runPlan fl ops d).2 = true.
Proof.
  induction ops as [|[n0 i] rest IH]; intros d n ino es Hin Hd.
  { by apply elem_of_nil in Hin. }
  cbn [runPlan]. apply elem_of_cons in Hin as [Heq|Hin].
  - injection Heq as <- <-. pose proof (linkOne_dir fl d ino n es Hd) as Ht.
    by destruct (linkOne fl d ino n) as [d' [[]|msg]].
  - pose proof (linkOne_keeps_dir fl d i n0 n es Hd) as Hk.
    destruct (linkOne fl d i n0) as [d' [[]|msg]]; [|done].
    by apply (IH d' n ino es).
Qed.

(** A subdirectory of the album directory that bears the flattened name of
    an extra of the tree makes the walk throw: [unlink] does not remove a
    directory and [link] finds the name taken. *)
Theorem linkExtrasRecursive_blocked_by_directory fl entries base
    (d : gmap string node) n ino es :
  (n, ino) ∈ plan base entries →
  d !! n = Some (Dir es) →
  threw (linkExtrasRecursive fl entries base d).2 = true.
Proof.
  intros Hin Hd. rewrite linkExtrasRecursive_plan.
  by apply (runPlan_blocked fl _ d n ino es).
Qed.

(** An album directory with a folder named [cover.jpg]. *)
Lemma linkExtrasRecursive_blocked_by_directory_witness :
  threw (linkExtrasRecursive no_faults (scenario_tree 1 2 3) ""
           {["cover.jpg" := Dir []]}).2 = true.
Proof.
  apply (linkExtrasRecursive_blocked_by_directory no_faults
           (scenario_tree 1 2 3) "" {["cover.jpg" := Dir []]} "cover.jpg" 1%N []).
  - vm_compute. by left.
  - reflexivity.
Defined.



(** ** Stale-extras removal, once and again *)

(** [removeExistingExtras] only removes: what it leaves was there before,
    unchanged; and on the directory it has left it removes nothing more, in
    the same environment. *)
Theorem removeExistingExtras_only_removes fl (d : gmap string node) :
  removeExistingExtras fl d ⊆ d
  ∧ removeExistingExtras fl (removeExistingExtras fl d)
    = removeExistingExtras fl d.
Proof.
  split.
  - apply map_subseteq_spec. intros n e.
    rewrite removeExistingExtras_lookup. unfold removed.
    destruct (d !! n) as [e'|]; [|done].
    by destruct (negb (lstat_fails fl n) && isFile e' && isExtraFile n
                 && negb (unlink_fails fl n)).
  - apply map_eq. intros n.
    rewrite !removeExistingExtras_lookup. apply removed_idemp.
Qed.

(** ** [findCommonParentDir] and the order of the paths *)

Lemma prefix_antisym {A} (l1 l2 : list A) :
  l1 `prefix_of` l2 → l2 `prefix_of` l1 → l1 = l2.
Proof.
  intros [k1 H1] [k2 H2]. rewrite H1 in H2.
  rewrite <- app_assoc in H2.
  assert (length (k1 ++ k2) = 0)%nat as Hlen.
  { apply (f_equal length) in H2. rewrite !length_app in *. lia. }
  destruct k1; [|simpl in Hlen; lia]. by rewrite app_nil_r in H1.
Qed.

(** The loop's result depends on which split directories there are, not on
    their order or number. *)
Lemma commonParts_same_elements sds1 sds2 :
  sds1 ≠ [] → sds2 ≠ [] →
  (∀ sp, sp ∈ sds1 ↔ sp ∈ sds2) →
  commonParts_loop sds1 0 (minLen (map length sds1))
  = commonParts_loop sds2 0 (minLen (map length sds2)).
Proof.
  intros H1 H2 Hsame. apply prefix_antisym.
  - apply commonParts_glb; [done|]. intros sp Hsp.
    apply Hsame in Hsp.
    pose proof (commonParts_loop_prefix sds1 (minLen (map length sds1)) 0
                  sp Hsp) as H.
    by rewrite drop_0 in H.
  - apply commonParts_glb; [done|]. intros sp Hsp.
    apply Hsame in Hsp.
    pose proof (commonParts_loop_prefix sds2 (minLen (map length sds2)) 0
                  sp Hsp) as H.
    by rewrite drop_0 in H.
Qed.

(** The result of [findCommonParentDir] is the same for two lists with the
    same paths, in whatever order and however often each is listed. *)
Theorem findCommonParentDir_same_paths cwd paths1 paths2 :
  (∀ p, p ∈ paths1 ↔ p ∈ paths2) →
  findCommonParentDir cwd paths1 = findCommonParentDir cwd paths2.
Proof.
  intros Hsame. unfold findCommonParentDir.
  destruct paths1 as [|p1 ps1] eqn:E1, paths2 as [|p2 ps2] eqn:E2; [done| | |].
  - exfalso. assert (p2 ∈ []) as H by (apply Hsame; by left).
    by apply elem_of_nil in H.
  - exfalso. assert (p1 ∈ []) as H by (apply Hsame; by left).
    by apply elem_of_nil in H.
  - rewrite <- E1, <- E2 in *.
    set (g := fun p => Path.dirname (Path.resolve cwd p)).
    rewrite (commonParts_same_elements
               (map (Js.split Js.slash) (map g paths1))
               (map (Js.split Js.slash) (map g paths2)));
      [done| by rewrite E1 | by rewrite E2 |].
    intros sp. rewrite !list_elem_of_fmap. split.
    + intros [q [-> Hq]]. apply list_elem_of_fmap in Hq as [p [-> Hp]].
      exists (g p). split; [done|].
      apply list_elem_of_fmap. exists p. split; [done|by apply Hsame].
    + intros [q [-> Hq]]. apply list_elem_of_fmap in Hq as [p [-> Hp]].
      exists (g p). split; [done|].
      apply list_elem_of_fmap. exists p. split; [done|by apply Hsame].
Qed.

(** The two tracks of an album, listed in the other order and one of them
    twice. *)
Lemma findCommonParentDir_same_paths_witness :
  findCommonParentDir "/srv" ["/music/A/02.flac"; "/music/A/CD2/01.flac";
                              "/music/A/02.flac"]
  = findCommonParentDir "/srv" ["/music/A/CD2/01.flac"; "/music/A/02.flac"].
Proof.
  apply (findCommonParentDir_same_paths "/srv"). intros p.
  rewrite !elem_of_cons, !elem_of_nil. tauto.
Defined.

(** ** [findCommonParentDir] on absolute paths: what it can return *)

(** The longest common prefix of the split tails of a list of paths. *)
Lemma common_split_tail_exists paths :
  paths ≠ [] →
  ∃ c, (∀ p, p ∈ paths → c `prefix_of` split_tail p)
       ∧ (∀ c', (∀ p, p ∈ paths → c' `prefix_of` split_tail p) →
                (length c' ≤ length c)%nat).
Proof.
  intros Hne.
  set (sds := map split_tail paths).
  assert (sds ≠ []) as Hsds by (unfold sds; by destruct paths).
  exists (commonParts_loop sds 0 (minLen (map length sds))). split.
  - intros p Hp.
    assert (split_tail p ∈ sds) as Hin
      by (unfold sds; apply list_elem_of_fmap; by exists p).
    pose proof (commonParts_loop_prefix sds (minLen (map length sds)) 0 _ Hin)
      as H.
    by rewrite drop_0 in H.
  - intros c' Hc'. apply prefix_length, commonParts_glb; [done|].
    intros sp Hsp. unfold sds in Hsp.
    apply list_elem_of_fmap in Hsp as [p [-> Hp]]. by apply Hc'.
Qed.

(** For a non-empty list of absolute paths [findCommonParentDir] neither
    throws nor returns [null]: it returns the empty string, or the path of a
    directory that lies above (or is) the directory of every path of the
    list. *)
Theorem findCommonParentDir_absolute cwd paths :
  paths ≠ [] →
  Forall (fun p => Path.isAbsolute p = true) paths →
  findCommonParentDir cwd paths = Return (JStr "")
  ∨ ∃ ds, common_dir paths ds
          ∧ findCommonParentDir cwd paths = Return (JStr (Path.of_segments ds)).
Proof.
  intros Hne Habs.
  destruct (common_split_tail_exists paths Hne) as (c & Hc & Hmax).
  unfold findCommonParentDir. destruct paths as [|p0 ps] eqn:E; [done|].
  rewrite <- E in *. rewrite splitDirs_absolute by done.
  rewrite (commonParts_absolute paths c) by done.
  destruct c as [|x c]; [by left|]. right.
  destruct (decide (x = "")) as [->|Hx].
  - exists []. split; [intros p Hp; apply prefix_nil|].
    assert (p0 ∈ paths) as Hp0 by (rewrite E; by left).
    pose proof (Hc p0 Hp0) as H0. unfold split_tail in H0.
    pose proof (parent_segments_ok p0) as Hok.
    destruct (Path.parent_segments p0) as [|d ds0].
    + apply prefix_length in H0. destruct c; [done|simpl in H0; lia].
    + apply prefix_cons_inv_1 in H0. inversion Hok as [|? ? [Hd _] _].
      congruence.
  - exists (x :: c). split.
    + intros p Hp. apply split_tail_head_not_empty; [by apply Hc|done].
    + unfold Path.of_segments. by destruct c.
Qed.

(** Two albums of one artist. *)
Lemma findCommonParentDir_absolute_witness :
  findCommonParentDir "/srv" ["/music/A/X/01.flac"; "/music/A/Y/01.flac"]
  = Return (JStr "")
  ∨ ∃ ds, common_dir ["/music/A/X/01.flac"; "/music/A/Y/01.flac"] ds
          ∧ findCommonParentDir "/srv"
              ["/music/A/X/01.flac"; "/music/A/Y/01.flac"]
            = Return (JStr (Path.of_segments ds)).
Proof.
  apply (findCommonParentDir_absolute "/srv"); [done|repeat constructor].
Defined.

(** ** [path.join] of a directory and a relative path *)

Lemma endsWithSlash_cons a w :
  w ≠ "" → Path.endsWithSlash (String a w) = Path.endsWithSlash w.
Proof. by destruct w. Qed.

Lemma endsWithSlash_app u v :
  v ≠ "" → Path.endsWithSlash (u +:+ v) = Path.endsWithSlash v.
Proof.
  intros Hv. induction u as [|a u IH]; [done|].
  rewrite app_String, endsWithSlash_cons; [done|].
  destruct u; [done|by rewrite app_String].
Qed.

Lemma endsWithSlash_no_slash x :
  Js.has_char Js.slash x = false → Path.endsWithSlash x = false.
Proof.
  induction x as [|a x IH]; [done|]. simpl Js.has_char. intros H.
  apply orb_false_iff in H as [Ha Hx].
  destruct x as [|b x]; [done|].
  rewrite endsWithSlash_cons by done. by apply IH.
Qed.

Lemma join_not_empty sep x ds : x ≠ "" → Js.join sep (x :: ds) ≠ "".
Proof.
  intros Hx H. pose proof (join_length_pos sep x ds Hx) as Hlen.
  rewrite H in Hlen. simpl in Hlen. lia.
Qed.

Lemma endsWithSlash_join bs :
  bs ≠ [] → Forall plain_name bs →
  Path.endsWithSlash (Js.join "/" bs) = false.
Proof.
  induction bs as [|x bs IH]; [done|]. intros _ H.
  inversion H as [|? ? (Hx1 & _ & _ & Hx4) Hbs]; subst.
  destruct bs as [|y bs]; [by apply endsWithSlash_no_slash|].
  rewrite join_cons, <- app_assoc_str.
  inversion Hbs as [|? ? (Hy1 & _) _]; subst.
  rewrite endsWithSlash_app by by apply join_not_empty.
  by apply IH.
Qed.

Lemma plain_name_segment_ok ds : Forall plain_name ds → Forall segment_ok ds.
Proof.
  intros H. eapply Forall_impl; [exact H|]. by intros s (H1 & _ & _ & H4).
Qed.

(** [path.join] of the directory with the names [ss] and of the relative
    path with the names [bs] is the path with the names of both. *)
Lemma join_of_segments ss bs :
  Forall plain_name ss → bs ≠ [] → Forall plain_name bs →
  Path.join (Path.of_segments ss) (Js.join "/" bs)
  = Path.of_segments (ss ++ bs).
Proof.
  intros Hss Hne Hbs. unfold Path.join.
  destruct (decide (Path.of_segments ss = "")) as [|_]; [done|].
  assert (Js.join "/" bs ≠ "") as Hb.
  { destruct bs as [|x bs]; [done|].
    inversion Hbs as [|? ? (Hx & _) _]; subst. by apply join_not_empty. }
  destruct (decide (Js.join "/" bs = "")) as [|_]; [done|].
  set (p := Path.of_segments ss +:+ "/" +:+ Js.join "/" bs).
  assert (Path.isAbsolute p = true) as Habs by done.
  assert (Path.endsWithSlash p = false) as Hend.
  { unfold p. rewrite <- app_assoc_str, endsWithSlash_app by done.
    by apply endsWithSlash_join. }
  assert (Path.normalizeString p false = Js.join "/" (ss ++ bs)) as Hn.
  { unfold Path.normalizeString, Path.norm_segments. f_equal.
    unfold p.
    change ("/" +:+ Js.join "/" bs) with (String Js.slash (Js.join "/" bs)).
    rewrite split_app_sep, fold_left_app.
    rewrite (split_join bs) by (done || by apply plain_name_segment_ok).
    assert (fold_left (Path.norm_step false)
              (Js.split Js.slash (Path.of_segments ss)) [] = rev ss) as ->.
    { destruct ss as [|x ss]; [done|].
      rewrite split_of_segments by (done || by apply plain_name_segment_ok).
      change (fold_left (Path.norm_step false) ("" :: x :: ss) [])
        with (fold_left (Path.norm_step false) (x :: ss) []).
      rewrite fold_norm_step_plain by done. by rewrite app_nil_r. }
    rewrite fold_norm_step_plain by done.
    by rewrite rev_app_distr, !rev_involutive. }
  unfold Path.normalize. destruct (decide (p = "")) as [Hp|_].
  { by rewrite Hp in Habs. }
  rewrite Habs. cbn [negb]. rewrite Hn, Hend.
  destruct (decide (Js.join "/" (ss ++ bs) = "")) as [He|_]; [|done].
  exfalso. destruct ss as [|x ss]; [done|].
  inversion Hss as [|? ? (Hx & _) _]; subst.
  by apply (join_not_empty "/" x (ss ++ bs)).
Qed.

(** The directory that holds a path written with plain names. *)
Lemma parent_segments_of_segments ss fs :
  Forall plain_name ss → fs ≠ [] → Forall plain_name fs →
  Path.parent_segments (Path.of_segments (ss ++ fs)) = ss ++ removelast fs.
Proof.
  intros Hss Hne Hfs. unfold Path.parent_segments.
  rewrite segments_of_segments by by apply Forall_app.
  by apply removelast_app.
Qed.

(** The first part of C4 (amended), on which the lemmas below rest. *)
Lemma findCommonParentDir_deepest_dir cwd paths ds :
  paths ≠ [] →
  Forall (fun p => Path.isAbsolute p = true) paths →
  common_dir paths ds →
  (∀ ds', common_dir paths ds' → (length ds' ≤ length ds)%nat) →
  ds ≠ [] →
  findCommonParentDir cwd paths = Return (JStr (Path.of_segments ds)).
Proof.
  intros Hne Habs Hcommon Hmax Hds.
  unfold findCommonParentDir. destruct paths as [|p0 ps] eqn:E; [done|].
  rewrite <- E in *. rewrite splitDirs_absolute by done.
  rewrite (commonParts_absolute paths ds); [| done | |].
  - unfold Path.of_segments. by destruct ds as [|d [|d' ds]].
  - intros p Hp. unfold split_tail. specialize (Hcommon p Hp).
    destruct ds as [|d ds]; [done|].
    destruct (Path.parent_segments p); [|done].
    by apply prefix_nil_inv in Hcommon.
  - intros c' Hc'. destruct c' as [|x c']; [simpl; lia|].
    destruct (decide (x = "")) as [->|Hx].
    + exfalso. assert (p0 ∈ paths) as Hp0 by (rewrite E; by left).
      pose proof (Hcommon p0 Hp0) as H0. specialize (Hc' p0 Hp0).
      unfold split_tail in Hc'. pose proof (parent_segments_ok p0) as Hok.
      destruct (Path.parent_segments p0) as [|d ds0].
      * apply prefix_nil_inv in H0. done.
      * apply prefix_cons_inv_1 in Hc'. inversion Hok as [|? ? [Hd _] _].
        congruence.
    + apply Hmax. intros p Hp.
      apply split_tail_head_not_empty; [by apply Hc'|done].
Qed.

(** ** The source directory of a torrent *)

(** The full paths of the files of a torrent: the mapped save path joined
    with each relative name. *)
Lemma torrent_file_paths ss fss :
  Forall plain_name ss →
  Forall (fun fs => fs ≠ [] ∧ Forall plain_name fs) fss →
  map (Path.join (Path.of_segments ss)) (map (Js.join "/") fss)
  = map (fun fs => Path.of_segments (ss ++ fs)) fss.
Proof.
  intros Hss Hfss. rewrite map_map. apply map_ext_Forall.
  eapply Forall_impl; [exact Hfss|]. intros fs [Hne Hfs]. simpl.
  by apply join_of_segments.
Qed.

(** For a torrent the client knows, whose save path (after the path
    mappings) is the directory with the plain names [ss] and whose files
    have the relative names [fss]: when [ds] is the deepest directory,
    relative to the save path, that holds every file, and the save path and
    [ds] are not both the root, [getTorrentFolder] returns the save path
    followed by [ds]. *)
Theorem getTorrentFolder_common_folder cfg id cookie save_path others
    ss fss ds :
  info_get (qbt cfg) id = Return (save_path :: others) →
  applyPathMappings save_path (pathMappings cfg) = Path.of_segments ss →
  Forall plain_name ss →
  files_get (qbt cfg) id = Return (map (Js.join "/") fss) →
  fss ≠ [] →
  Forall (fun fs => fs ≠ [] ∧ Forall plain_name fs) fss →
  (∀ fs, fs ∈ fss → ds `prefix_of` removelast fs) →
  (∀ ds', (∀ fs, fs ∈ fss → ds' `prefix_of` removelast fs) →
          (length ds' ≤ length ds)%nat) →
  ss ++ ds ≠ [] →
  getTorrentFolder cfg id (Some cookie)
  = Return (Path.of_segments (ss ++ ds)).
Proof.
  intros Hinfo Hmap Hss Hfiles Hne Hfss Hds Hmax Hroot.
  unfold getTorrentFolder. rewrite Hinfo, Hmap, Hfiles.
  destruct (map (Js.join "/") fss) as [|f0 fs'] eqn:Ef.
  { by destruct fss. }
  rewrite <- Ef, torrent_file_paths by done.
  set (paths := map (fun fs => Path.of_segments (ss ++ fs)) fss).
  assert (∀ p, p ∈ paths →
               ∃ fs, fs ∈ fss ∧ p = Path.of_segments (ss ++ fs)
                     ∧ Path.parent_segments p = ss ++ removelast fs) as Hp.
  { intros p Hin. unfold paths in Hin.
    apply list_elem_of_fmap in Hin as [fs [-> Hin]].
    exists fs. split; [done|]. split; [done|].
    rewrite Forall_forall in Hfss. destruct (Hfss fs Hin) as [Hfs1 Hfs2].
    by apply parent_segments_of_segments. }
  rewrite (findCommonParentDir_deepest_dir (cwd cfg) paths (ss ++ ds)).
  - unfold Path.of_segments. done.
  - unfold paths. by destruct fss.
  - unfold paths. apply Forall_forall. intros p Hin.
    apply list_elem_of_fmap in Hin as [fs [-> Hin]]. done.
  - intros p Hin. destruct (Hp p Hin) as (fs & Hfs & _ & ->).
    destruct (Hds fs Hfs) as [k ->]. exists k. by rewrite <- app_assoc.
  - intros ds' Hds'.
    assert (∃ fs0, fs0 ∈ fss) as [fs0 Hfs0].
    { destruct fss as [|fs0 fss']; [done|]. exists fs0. by left. }
    assert (Path.of_segments (ss ++ fs0) ∈ paths) as Hp0.
    { unfold paths. apply list_elem_of_fmap. by exists fs0. }
    pose proof (Hds' _ Hp0) as H0.
    destruct (Hp _ Hp0) as (fs & _ & _ & Hpar). rewrite Hpar in H0.
    destruct (prefix_weak_total ds' ss (ss ++ removelast fs) H0) as [Hle|Hge].
    { by apply prefix_app_r. }
    + apply prefix_length in Hle. rewrite length_app. lia.
    + destruct Hge as [k ->]. rewrite !length_app.
      assert (length k ≤ length ds)%nat; [|lia].
      apply Hmax. intros fs1 Hfs1.
      assert (Path.of_segments (ss ++ fs1) ∈ paths) as Hp1.
      { unfold paths. apply list_elem_of_fmap. by exists fs1. }
      pose proof (Hds' _ Hp1) as H1.
      rewrite Forall_forall in Hfss. destruct (Hfss fs1 Hfs1) as [Hn1 Hpl1].
      rewrite parent_segments_of_segments in H1 by done.
      by apply prefix_app_inv in H1.
  - done.
Qed.

(** A torrent of one file that lies directly in its save path: the source
    directory is the save path itself, here the whole download folder. *)
Lemma getTorrentFolder_common_folder_witness :
  getTorrentFolder
    (Config (Some [Mapping "/data" "/mnt/downloads"]) "/srv" no_faults
       (one_torrent "abc" "/data" ["song.flac"]))
    "abc" (Some ["SID=1"])
  = Return "/mnt/downloads".
Proof.
  apply (getTorrentFolder_common_folder _ "abc" ["SID=1"] "/data" []
           ["mnt"; "downloads"] [["song.flac"]] []).
  - reflexivity.
  - reflexivity.
  - repeat constructor; done.
  - reflexivity.
  - done.
  - repeat constructor; done.
  - intros fs _. apply prefix_nil.
  - intros ds' H. specialize (H ["song.flac"]).
    assert (ds' `prefix_of` []) as H' by (apply H; by left).
    by apply prefix_nil_inv in H' as ->.
  - done.
Defined.

(** ** What the handler never touches *)








(** ** The effect of a run on the directories *)

Lemma setAlbum_setAlbum w a d1 d2 :
  setAlbum (setAlbum w a d1) a d2 = setAlbum w a d2.
Proof. unfold setAlbum. simpl. by rewrite insert_insert_eq. Qed.

Lemma processImport_effect cfg tracks id s :
  fs (processImport cfg tracks id s).1 = importEffect cfg tracks id (fs s).
Proof.
  unfold processImport, importEffect, bind, enter, lift, throw. simpl.
  destruct (findCommonParentDir (cwd cfg) (map path tracks))
    as [[|[|c r]]|msg]; simpl; try done.
  unfold removeExistingExtrasAt. simpl.
  destruct (albums (fs s) !! String c r) as [d|] eqn:Ha; simpl; [|done].
  destruct (qbtLogin cfg) as [cookie|msg]; simpl; [|done].
  destruct (getTorrentFolder cfg id cookie) as [originalDir|msg]; simpl;
    [|done].
  unfold linkExtrasRecursiveAt. simpl.
  destruct (downloads (fs s) !! originalDir) as [entries|]; simpl; [|done].
  rewrite lookup_insert_eq.
  destruct (linkExtrasRecursive (io cfg) entries ""
              (removeExistingExtras (io cfg) d)) as [d' c'].
  simpl. unfold setAlbum. by rewrite insert_insert_eq.
Qed.

(** The directories after the handler has answered are the directories
    before for a [Test] notification and for one it rejects, and
    [importEffect] of the directories before otherwise: they do not depend
    on what was logged or entered before, and a walk that throws keeps what
    it has linked. *)
Lemma webhook_fs cfg body s :
  fs (webhook cfg body s).1
  = if bool_decide (eventType body = Some "Test") then fs s
    else match trackFiles body with
         | None => fs s
         | Some tracks =>
             if noDownloadId body then fs s
             else importEffect cfg tracks (default "" (downloadId body)) (fs s)
         end.
Proof.
  unfold webhook. case_bool_decide; [done|].
  destruct (trackFiles body) as [tracks|]; [|done].
  destruct (noDownloadId body); [done|].
  unfold try_catch, bind, ret, console_error.
  pose proof (processImport_effect cfg tracks (default "" (downloadId body)) s)
    as Heff.
  by destruct (processImport _ _ _ _) as [s1 [[]|msg]].
Qed.

(** The removal and the walk, run again on what they left. *)
Lemma sync_twice fl entries (d : gmap string node) :
  (∀ n, unlink_fails fl n = false) →
  (linkExtrasRecursive fl entries ""
     (removeExistingExtras fl
        (linkExtrasRecursive fl entries "" (removeExistingExtras fl d)).1)).1
  = (linkExtrasRecursive fl entries "" (removeExistingExtras fl d)).1.
Proof.
  intros Hu. rewrite !linkExtrasRecursive_plan.
  set (ops := plan "" entries).
  set (r0 := removeExistingExtras fl d).
  set (r1 := removeExistingExtras fl (runPlan fl ops r0).1).
  assert (same_dirs r0 r1) as Hsame.
  { intros n. destruct (notDir (r0 !! n)) eqn:Hnd.
    - right. split; [done|].
      destruct (r1 !! n) as [[j|es|]|] eqn:Hr1; try done.
      unfold r1 in Hr1. rewrite removeExistingExtras_lookup in Hr1.
      apply removed_Some_dir in Hr1.
      apply (runPlan_dirs fl ops r0 n es Hu) in Hr1.
      by rewrite Hr1 in Hnd.
    - left. destruct (r0 !! n) as [[i|es|]|] eqn:Hr0; try done.
      unfold r1. rewrite removeExistingExtras_lookup.
      apply (runPlan_dirs fl ops r0 n es Hu) in Hr0 as ->.
      by rewrite removed_dir. }
  destruct (runPlan_sim fl ops r0 r1 Hu Hsame) as [_ Hs].
  destruct (runPlan fl ops r1) as [d2 c2] eqn:E2.
  destruct (runPlan fl ops r0) as [d1 c1] eqn:E1.
  simpl in *. apply map_eq. intros n.
  destruct (Hs n) as [H|[H1 H2]]; [done|].
  rewrite H1, H2. unfold r1, r0.
  rewrite removeExistingExtras_lookup, H1. unfold r0.
  rewrite removeExistingExtras_lookup. apply removed_idemp.
Qed.

Lemma removeExistingExtras_twice fl (d : gmap string node) :
  removeExistingExtras fl (removeExistingExtras fl d)
  = removeExistingExtras fl d.
Proof.
  apply map_eq. intros n.
  rewrite !removeExistingExtras_lookup. apply removed_idemp.
Qed.

Lemma importEffect_twice cfg tracks id w :
  (∀ n, unlink_fails (io cfg) n = false) →
  importEffect cfg tracks id (importEffect cfg tracks id w)
  = importEffect cfg tracks id w.
Proof.
  intros Hu. unfold importEffect.
  destruct (findCommonParentDir (cwd cfg) (map path tracks))
    as [[|[|c r]]|msg]; try done.
  destruct (albums w !! String c r) as [d|] eqn:Ha; cbv zeta.
  2:{ by rewrite Ha. }
  destruct (qbtLogin cfg) as [cookie|msg].
  2:{ simpl. rewrite lookup_insert_eq, removeExistingExtras_twice.
      apply setAlbum_setAlbum. }
  destruct (getTorrentFolder cfg id cookie) as [originalDir|msg].
  2:{ simpl. rewrite lookup_insert_eq, removeExistingExtras_twice.
      apply setAlbum_setAlbum. }
  destruct (downloads w !! originalDir) as [entries|] eqn:Hd.
  2:{ simpl. rewrite lookup_insert_eq, Hd, removeExistingExtras_twice.
      apply setAlbum_setAlbum. }
  simpl. rewrite lookup_insert_eq, Hd, sync_twice by done.
  apply setAlbum_setAlbum.
Qed.

(** The same notification delivered a second time, with the torrent client
    answering as before and [unlink] never refused, leaves the directories
    as the first delivery left them. *)
Theorem webhook_redelivery cfg body s :
  (∀ n, unlink_fails (io cfg) n = false) →
  fs (webhook cfg body (webhook cfg body s).1).1 = fs (webhook cfg body s).1.
Proof.
  intros Hu. rewrite (webhook_fs cfg body (webhook cfg body s).1).
  rewrite (webhook_fs cfg body s).
  case_bool_decide; [done|].
  destruct (trackFiles body) as [tracks|]; [|done].
  destruct (noDownloadId body); [done|].
  by apply importEffect_twice.
Qed.

(** The notification of the example, delivered twice. *)
Lemma webhook_redelivery_witness :
  fs (webhook (example_config no_faults) (example_body "abc")
        (webhook (example_config no_faults) (example_body "abc")
           (start example_world)).1).1
  = fs (webhook (example_config no_faults) (example_body "abc")
          (start example_world)).1.
Proof.
  apply (webhook_redelivery (example_config no_faults) (example_body "abc")).
  intros n. reflexivity.
Defined.

(** ** What the walk can leave under a name *)

Lemma linkOne_entry fl (d : gmap string node) ino destFile :
  (linkOne fl d ino destFile).1 !! destFile = d !! destFile
  ∨ (linkOne fl d ino destFile).1 !! destFile = None
  ∨ (linkOne fl d ino destFile).1 !! destFile = Some (File ino).
Proof.
  unfold linkOne, Fs.unlink, Fs.link.
  destruct (unlink_fails fl destFile), (link_fails fl ino); simpl; auto;
    destruct (d !! destFile) as [[i|es|]|] eqn:Hd; simpl;
    rewrite ?lookup_delete_eq, ?Hd; simpl;
    rewrite ?lookup_insert_eq, ?lookup_delete_eq; auto.
Qed.

Lemma runPlan_entry fl ops : ∀ (d : gmap string node) n,
  (runPlan fl ops d).1 !! n = d !! n
  ∨ (runPlan fl ops d).1 !! n = None
  ∨ ∃ ino, (n, ino) ∈ ops ∧ (runPlan fl ops d).1 !! n = Some (File ino).
Proof.
  induction ops as [|[n0 i] rest IH]; intros d n; [by left|].
  cbn [runPlan].
  assert ((linkOne fl d i n0).1 !! n = d !! n
          ∨ (linkOne fl d i n0).1 !! n = None
          ∨ (n = n0 ∧ (linkOne fl d i n0).1 !! n = Some (File i))) as Hstep.
  { destruct (decide (n = n0)) as [->|Hne].
    - destruct (linkOne_entry fl d i n0) as [H|[H|H]]; auto.
    - left. by apply linkOne_other. }
  destruct (linkOne fl d i n0) as [d' [[]|msg]]; simpl in *.
  - destruct (IH d' n) as [H|[H|(ino & Hin & H)]].
    + rewrite H. destruct Hstep as [Hs|[Hs|[-> Hs]]]; auto.
      right. right. exists i. split; [by left|done].
    + auto.
    + right. right. exists ino. split; [by right|done].
  - destruct Hstep as [Hs|[Hs|[-> Hs]]]; auto.
    right. right. exists i. split; [by left|done].
Qed.

(** After the walk, whatever has failed, an entry of the album directory is
    what it was, or is gone (unlinked for a link that was then refused), or
    is a link to an extra of the tree whose flattened name is the name of
    the entry; nothing else is ever put into the album directory. *)
Theorem linkExtrasRecursive_entries fl entries base (d : gmap string node) n :
  (linkExtrasRecursive fl entries base d).1 !! n = d !! n
  ∨ (linkExtrasRecursive fl entries base d).1 !! n = None
  ∨ ∃ ino, (n, ino) ∈ plan base entries
           ∧ (linkExtrasRecursive fl entries base d).1 !! n = Some (File ino).
Proof. rewrite linkExtrasRecursive_plan. apply runPlan_entry. Qed.

(** Every name under which the walk links a file is itself the name of an
    extra, whatever the names of the directories on the way: what one run
    has linked, the stale-extras removal of the next run takes for an
    extra. *)
Theorem flattened_extras_are_extras base entries n ino :
  (n, ino) ∈ plan base entries → isExtraFile n = true.
Proof.
  intros Hin. pose proof (plan_extras base entries) as H.
  rewrite Forall_forall in H. by apply (H (n, ino)).
Qed.

(** The log of the scenario, below a directory with a dot in its name. *)
Lemma flattened_extras_are_extras_witness :
  isExtraFile "disc.1-log.log" = true.
Proof.
  apply (flattened_extras_are_extras ""
           [("disc.1", Dir [("log.log", File 2)])] "disc.1-log.log" 2%N).
  vm_compute. by left.
Defined.
